(** * VoiceLab live audio: PCM sample codec and playback scheduling

    A shallow embedding of the live-conversation part of
    [src/components/VoiceLab.tsx]: the 16-bit PCM conversion done in
    [onaudioprocess] and [decodeAudioData], and the callbacks of the live
    session ([startLive], [onopen], [onmessage], [onclose], [onerror],
    [stopLive]) acting on the component's refs and on the browser objects
    they touch.

    Numbers.  Audio samples and clock times are JavaScript numbers.  Every
    arithmetic step the code performs on samples is exact in binary floating
    point (a Float32 sample times 2^15, an Int16 divided by 2^15), so finite
    samples are modelled by rationals [Q] (NaN and the infinities are left
    out).  Clock times and durations are modelled by rationals as well,
    compared with [==].

    Base64.  The helpers [encode] and [decode] of the source wrap the PCM
    bytes into base64 text with [btoa] and [atob], which are modelled from
    the HTML standard.  A server message carries its audio as such text,
    and [onmessage] decodes it. *)

From Stdlib.Strings Require Import Ascii String Byte.
From Stdlib Require Import ZArith QArith Qabs Qminmax Lqa List Lia Bool.
Import ListNotations.
Local Open Scope Z_scope.

(** ** Results of operations that may throw *)

Inductive DOMException : Type :=
| RangeError          (* typed-array view over a buffer of the wrong size *)
| NotSupportedError.  (* Web Audio argument outside its nominal range *)

Inductive Result (A : Type) : Type :=
| Ok (a : A)
| Throw (e : DOMException).
Arguments Ok {A} a.
Arguments Throw {A} e.

Definition bind {A B : Type} (r : Result A) (k : A -> Result B) : Result B :=
  match r with
  | Ok a => k a
  | Throw e => Throw e
  end.

Notation "x <- r ;; k" := (bind r (fun x => k))
  (at level 61, r at next level, right associativity).

Definition succeeds {A : Type} (r : Result A) : bool :=
  match r with Ok _ => true | Throw _ => false end.

(** ** Typed arrays *)

Module TypedArray.

(** Truncation of a finite number towards zero (the integer part taken by
    the conversion to an integer element type). *)
Definition truncate (x : Q) : Z := Z.quot (Qnum x) (Z.pos (Qden x)).

(** ECMAScript [ToInt16] on an integer: reduce modulo 2^16, then read the
    result as a two's complement 16-bit value. *)
Definition ToInt16 (n : Z) : Z :=
  let int16bit := n mod 65536 in
  if 32768 <=? int16bit then int16bit - 65536 else int16bit.

(** Storing a number into an [Int16Array] element. *)
Definition setInt16 (x : Q) : Z := ToInt16 (truncate x).

Definition byte_of_Z (z : Z) : byte :=
  match Byte.of_N (Z.to_N (z mod 256)) with
  | Some b => b
  | None => x00
  end.

Definition Z_of_byte (b : byte) : Z := Z.of_N (Byte.to_N b).

(** [new Uint8Array(int16.buffer)]: the two bytes of every element, low
    byte first (typed arrays use the byte order of the platform, which is
    little-endian wherever this code runs). *)
Definition bytes_of_int16 (v : Z) : list byte :=
  [byte_of_Z v; byte_of_Z (v / 256)].

Definition Uint8Array_of_Int16Array (a : list Z) : list byte :=
  flat_map bytes_of_int16 a.

Definition int16_of_bytes (lo hi : byte) : Z :=
  ToInt16 (Z_of_byte lo + 256 * Z_of_byte hi).

Fixpoint int16_elements (data : list byte) : list Z :=
  match data with
  | lo :: hi :: rest => int16_of_bytes lo hi :: int16_elements rest
  | _ => []
  end.

(** [new Int16Array(data.buffer)]: a view of the whole buffer; the
    constructor throws a RangeError when the byte length is not a multiple
    of the element size. *)
Definition Int16Array_of_buffer (data : list byte) : Result (list Z) :=
  if Nat.even (length data) then Ok (int16_elements data)
  else Throw RangeError.

End TypedArray.

(** ** Audio buffers *)

Record AudioBuffer : Type := {
  channelData : list Q;   (* getChannelData(0) *)
  sampleRate : positive
}.

Definition duration (b : AudioBuffer) : Q :=
  Z.of_nat (length (channelData b)) # sampleRate b.

(** [ctx.createBuffer(1, length, sampleRate)]: a silent one-channel buffer.
    The Web Audio API requires [length] to be at least 1 and throws
    NotSupportedError otherwise. *)
Definition createBuffer (len : nat) (rate : positive) : Result AudioBuffer :=
  match len with
  | O => Throw NotSupportedError
  | S _ => Ok {| channelData := repeat 0%Q len; sampleRate := rate |}
  end.

(** The loop [for (i = 0; i < n; i++) channelData[i] = f(i)] over a buffer
    of [n] frames, given the values written in index order. *)
Fixpoint fill (dst src : list Q) : list Q :=
  match dst, src with
  | _ :: dst', v :: src' => v :: fill dst' src'
  | _, _ => dst
  end.

Definition decodeAudioData (data : list byte) : Result AudioBuffer :=
  dataInt16 <- TypedArray.Int16Array_of_buffer data ;;
  buffer <- createBuffer (length dataInt16) 24000 ;;
  Ok {| channelData :=
          fill (channelData buffer) (map (fun v => v # 32768) dataInt16);
        sampleRate := sampleRate buffer |}.

(** The conversion loop of [onaudioprocess]:
    [int16[i] = inputData[i] * 32768], followed by
    [new Uint8Array(int16.buffer)]. *)
Definition int16_of_input (inputData : list Q) : list Z :=
  map (fun x => TypedArray.setInt16 (x * 32768)) inputData.

Definition pcm_of_input (inputData : list Q) : list byte :=
  TypedArray.Uint8Array_of_Int16Array (int16_of_input inputData).

(** ** The live session

    The component's state and refs, together with the browser and SDK
    objects its callbacks act on.  Objects are named by the order of their
    creation: connection [k] is the [k]-th [ai.live.connect] call, node [n]
    the [n]-th buffer source (each is started right after its creation, so
    it is also the [n]-th entry of [started]). *)

Inductive ConnectionState : Type := Connecting | Opened | Closed.

Record StartedSource : Type := {
  node : nat;
  buffer : AudioBuffer;   (* source.buffer *)
  when : Q                (* argument of source.start *)
}.

Record World : Type := {
  (* useState / useRef of VoiceLab *)
  isLiveActive : bool;
  liveTranscription : list (string * string);
  liveSessionRef : option nat;
  nextStartTimeRef : Q;
  sourcesRef : list nat;                 (* Set<AudioBufferSourceNode> *)
  inputAudioCtxRef : option nat;
  outputAudioCtxRef : option nat;
  (* browser and SDK *)
  _scriptProcessor : option nat;         (* window._scriptProcessor *)
  audioContexts : nat;                   (* AudioContexts constructed *)
  mediaStreams : nat;                    (* streams given by getUserMedia *)
  connections : list ConnectionState;    (* ai.live.connect sessions *)
  processors : list bool;                (* script processors: connected? *)
  started : list StartedSource;          (* source.start calls, in order *)
  sent : list (nat * list byte);         (* sendRealtimeInput, per session *)
  errors : list string;                  (* console.error *)
  alerts : list string                   (* alert *)
}.

Definition initial : World := {|
  isLiveActive := false;
  liveTranscription := [];
  liveSessionRef := None;
  nextStartTimeRef := 0;
  sourcesRef := [];
  inputAudioCtxRef := None;
  outputAudioCtxRef := None;
  _scriptProcessor := None;
  audioContexts := 0;
  mediaStreams := 0;
  connections := [];
  processors := [];
  started := [];
  sent := [];
  errors := [];
  alerts := []
|}.

(** [a[i] = v] on an existing index. *)
Fixpoint update {A : Type} (i : nat) (v : A) (l : list A) : list A :=
  match l, i with
  | [], _ => []
  | _ :: t, O => v :: t
  | h :: t, S j => h :: update j v t
  end.

(** [Set.add] and [Set.delete], the set kept in insertion order. *)
Definition set_add (n : nat) (s : list nat) : list nat :=
  if existsb (Nat.eqb n) s then s else s ++ [n].

Definition set_delete (n : nat) (s : list nat) : list nat :=
  filter (fun m => negb (Nat.eqb n m)) s.

(** ** The base64 helpers [encode] and [decode]

    Binary strings and base64 text are strings of 8-bit characters.
    [btoa] and [atob] follow the HTML standard: [btoa] is base64 with
    padding; [atob] is "forgiving-base64 decode", which drops ASCII
    whitespace, accepts the padding or its absence, and fails
    (InvalidCharacterError, here [None]) on any other text. *)

Module Base64.

Definition alphabet : list ascii :=
  list_ascii_of_string
    "ABCDEFGHIJKLMNOPQRSTUVWXYZabcdefghijklmnopqrstuvwxyz0123456789+/".

Definition code (c : ascii) : Z := Z.of_N (N_of_ascii c).

Definition digit (v : Z) : ascii := nth (Z.to_nat v) alphabet "A"%char.

Fixpoint index_of (c : ascii) (l : list ascii) (i : Z) : option Z :=
  match l with
  | [] => None
  | x :: r => if Ascii.eqb c x then Some i else index_of c r (i + 1)
  end.

Definition value (c : ascii) : option Z := index_of c alphabet 0.

(** Three bytes give four digits; a last group of one or two bytes is
    padded with [=]. *)
Fixpoint btoa_chars (l : list ascii) : list ascii :=
  match l with
  | [] => []
  | [a] =>
    [digit (code a / 4); digit (code a mod 4 * 16); "="; "="]%char
  | [a; b] =>
    [digit (code a / 4);
     digit (code a mod 4 * 16 + code b / 16);
     digit (code b mod 16 * 4); "="%char]
  | a :: b :: c :: rest =>
    digit (code a / 4)
    :: digit (code a mod 4 * 16 + code b / 16)
    :: digit (code b mod 16 * 4 + code c / 64)
    :: digit (code c mod 64)
    :: btoa_chars rest
  end.

Definition btoa (s : string) : string :=
  string_of_list_ascii (btoa_chars (list_ascii_of_string s)).

Definition is_ascii_whitespace (c : ascii) : bool :=
  let n := code c in
  (n =? 9) || (n =? 10) || (n =? 12) || (n =? 13) || (n =? 32).

(** Removes one or two [=] at the end of the text. *)
Fixpoint strip_padding (l : list ascii) : list ascii :=
  match l with
  | [] => []
  | c :: r =>
    if Ascii.eqb c "=" &&
       match r with
       | [] => true
       | [d] => Ascii.eqb d "="
       | _ => false
       end
    then []
    else c :: strip_padding r
  end.

Fixpoint values (l : list ascii) : option (list Z) :=
  match l with
  | [] => Some []
  | c :: r =>
    match value c, values r with
    | Some v, Some vs => Some (v :: vs)
    | _, _ => None
    end
  end.

Definition char_of_code (v : Z) : ascii := ascii_of_N (Z.to_N v).

(** Four digits give three bytes; of a last group of two or three digits
    the bits beyond the last whole byte are discarded. *)
Fixpoint bytes_of_values (vs : list Z) : list ascii :=
  match vs with
  | a :: b :: c :: d :: rest =>
    char_of_code (a * 4 + b / 16)
    :: char_of_code (b mod 16 * 16 + c / 4)
    :: char_of_code (c mod 4 * 64 + d)
    :: bytes_of_values rest
  | [a; b; c] =>
    [char_of_code (a * 4 + b / 16); char_of_code (b mod 16 * 16 + c / 4)]
  | [a; b] => [char_of_code (a * 4 + b / 16)]
  | _ => []
  end.

Definition atob (data : string) : option string :=
  let stripped :=
    filter (fun c => negb (is_ascii_whitespace c))
           (list_ascii_of_string data) in
  let unpadded :=
    if (length stripped mod 4 =? 0)%nat then strip_padding stripped
    else stripped in
  if (length unpadded mod 4 =? 1)%nat then None
  else
    match values unpadded with
    | Some vs => Some (string_of_list_ascii (bytes_of_values vs))
    | None => None
    end.

End Base64.

(** [encode]: the bytes as a binary string, one character per byte, given
    to [btoa]. *)
Definition encode (bytes : list byte) : string :=
  Base64.btoa (string_of_list_ascii (map ascii_of_byte bytes)).

(** [decode]: [atob], then one byte per character of the binary string.
    [None] stands for the exception [atob] throws. *)
Definition decode (base64 : string) : option (list byte) :=
  match Base64.atob base64 with
  | Some binaryString =>
    Some (map byte_of_ascii (list_ascii_of_string binaryString))
  | None => None
  end.

(** The parts of the SDK's content types that the code reads: of a model
    turn in [onmessage], of a [generateContent] response in
    [generateSpeech]. *)
Module GenAI.

Record Blob : Type := { data : option string; mimeType : option string }.
Record Part : Type := { inlineData : option Blob; text : option string }.
Record Content : Type := { parts : option (list Part) }.
Record Candidate : Type := { content : option Content }.
Record GenerateContentResponse : Type :=
  { candidates : option (list Candidate) }.

End GenAI.

(** [xs?.[0]]. *)
Definition first {A : Type} (xs : option (list A)) : option A :=
  match xs with
  | Some (x :: _) => Some x
  | _ => None
  end.

(** A server message, reduced to the three fields of [serverContent]
    that [onmessage] reads (a message without [serverContent] has none of
    them). *)
Record LiveServerMessage : Type := {
  modelTurn : option GenAI.Content;
  outputTranscription : option string;
  inputTranscription : option string
}.

(** Reading a property may throw a TypeError. *)
Inductive Lookup (A : Type) : Type :=
| Found (a : A)
| TypeError.
Arguments Found {A} a.
Arguments TypeError {A}.

(** [message.serverContent?.modelTurn?.parts[0]?.inlineData?.data]: the
    base64 text of the first part, if there is one.  The index into [parts]
    is not guarded, so a model turn without [parts] throws. *)
Definition audioData (m : LiveServerMessage) : Lookup (option string) :=
  match modelTurn m with
  | None => Found None
  | Some turn =>
    match GenAI.parts turn with
    | None => TypeError
    | Some [] => Found None
    | Some (part :: _) =>
      match GenAI.inlineData part with
      | None => Found None
      | Some blob => Found (GenAI.data blob)
      end
    end
  end.

Definition microphone_alert : string :=
  "Microphone access required for Live API.".

(** [startLive] up to [await sessionPromise]: two fresh audio contexts,
    then the microphone request; when it is granted the connection is
    requested, otherwise the [catch] branch alerts.  The assignment to
    [liveSessionRef] (line 107) waits for the connection to open and is
    part of [onopen] below. *)
Definition startLive (granted : bool) (w : World) : World :=
  let ctx := audioContexts w in
  if granted then
    {| isLiveActive := isLiveActive w;
       liveTranscription := liveTranscription w;
       liveSessionRef := liveSessionRef w;
       nextStartTimeRef := nextStartTimeRef w;
       sourcesRef := sourcesRef w;
       inputAudioCtxRef := Some ctx;
       outputAudioCtxRef := Some (S ctx);
       _scriptProcessor := _scriptProcessor w;
       audioContexts := S (S ctx);
       mediaStreams := S (mediaStreams w);
       connections := connections w ++ [Connecting];
       processors := processors w;
       started := started w;
       sent := sent w;
       errors := errors w;
       alerts := alerts w |}
  else
    {| isLiveActive := isLiveActive w;
       liveTranscription := liveTranscription w;
       liveSessionRef := liveSessionRef w;
       nextStartTimeRef := nextStartTimeRef w;
       sourcesRef := sourcesRef w;
       inputAudioCtxRef := Some ctx;
       outputAudioCtxRef := Some (S ctx);
       _scriptProcessor := _scriptProcessor w;
       audioContexts := S (S ctx);
       mediaStreams := mediaStreams w;
       connections := connections w;
       processors := processors w;
       started := started w;
       sent := sent w;
       errors := errors w;
       alerts := alerts w ++ [microphone_alert] |}.

(** Connection [k] has opened.  The [onopen] callback runs: the session
    becomes active and a new script processor is connected between the
    microphone and the destination.  Then [sessionPromise] is fulfilled
    and [startLive] resumes at line 107:
    [liveSessionRef.current = await sessionPromise]. *)
Definition onopen (k : nat) (w : World) : World :=
  {| isLiveActive := true;
     liveTranscription := liveTranscription w;
     liveSessionRef := Some k;
     nextStartTimeRef := nextStartTimeRef w;
     sourcesRef := sourcesRef w;
     inputAudioCtxRef := inputAudioCtxRef w;
     outputAudioCtxRef := outputAudioCtxRef w;
     _scriptProcessor := Some (length (processors w));
     audioContexts := audioContexts w;
     mediaStreams := mediaStreams w;
     connections := update k Opened (connections w);
     processors := processors w ++ [true];
     started := started w;
     sent := sent w;
     errors := errors w;
     alerts := alerts w |}.

(** [onaudioprocess] of the processor created for connection [k]. *)
Definition onaudioprocess (k : nat) (inputData : list Q) (w : World) : World :=
  {| isLiveActive := isLiveActive w;
     liveTranscription := liveTranscription w;
     liveSessionRef := liveSessionRef w;
     nextStartTimeRef := nextStartTimeRef w;
     sourcesRef := sourcesRef w;
     inputAudioCtxRef := inputAudioCtxRef w;
     outputAudioCtxRef := outputAudioCtxRef w;
     _scriptProcessor := _scriptProcessor w;
     audioContexts := audioContexts w;
     mediaStreams := mediaStreams w;
     connections := connections w;
     processors := processors w;
     started := started w;
     sent := sent w ++ [(k, pcm_of_input inputData)];
     errors := errors w;
     alerts := alerts w |}.

(** Line 79 of [onmessage]:
    [nextStartTimeRef.current = Math.max(nextStartTimeRef.current, ctx.currentTime)],
    [now] being the value read from [ctx.currentTime]. *)
Definition syncNextStartTime (now : Q) (w : World) : World :=
  {| isLiveActive := isLiveActive w;
     liveTranscription := liveTranscription w;
     liveSessionRef := liveSessionRef w;
     nextStartTimeRef := Qmax (nextStartTimeRef w) now;
     sourcesRef := sourcesRef w;
     inputAudioCtxRef := inputAudioCtxRef w;
     outputAudioCtxRef := outputAudioCtxRef w;
     _scriptProcessor := _scriptProcessor w;
     audioContexts := audioContexts w;
     mediaStreams := mediaStreams w;
     connections := connections w;
     processors := processors w;
     started := started w;
     sent := sent w;
     errors := errors w;
     alerts := alerts w |}.

(** Lines 81 to 87 of [onmessage]: a new source node for the decoded buffer
    is started at [nextStartTimeRef.current], which then advances by the
    buffer's duration; the node joins [sourcesRef]. *)
Definition startSource (b : AudioBuffer) (w : World) : World :=
  let source := length (started w) in
  {| isLiveActive := isLiveActive w;
     liveTranscription := liveTranscription w;
     liveSessionRef := liveSessionRef w;
     nextStartTimeRef := nextStartTimeRef w + duration b;
     sourcesRef := set_add source (sourcesRef w);
     inputAudioCtxRef := inputAudioCtxRef w;
     outputAudioCtxRef := outputAudioCtxRef w;
     _scriptProcessor := _scriptProcessor w;
     audioContexts := audioContexts w;
     mediaStreams := mediaStreams w;
     connections := connections w;
     processors := processors w;
     started := started w ++ [{| node := source; buffer := b;
                                  when := nextStartTimeRef w |}];
     sent := sent w;
     errors := errors w;
     alerts := alerts w |}.

(** Scheduling one decoded buffer when the device clock reads [now]. *)
Definition enqueue (b : AudioBuffer) (now : Q) (w : World) : World :=
  startSource b (syncNextStartTime now w).

(** [setLiveTranscription(prev => [...prev, {role, text}])]. *)
Definition pushTranscription (role : string) (text : option string)
    (w : World) : World :=
  match text with
  | None => w
  | Some t =>
    {| isLiveActive := isLiveActive w;
       liveTranscription := liveTranscription w ++ [(role, t)];
       liveSessionRef := liveSessionRef w;
       nextStartTimeRef := nextStartTimeRef w;
       sourcesRef := sourcesRef w;
       inputAudioCtxRef := inputAudioCtxRef w;
       outputAudioCtxRef := outputAudioCtxRef w;
       _scriptProcessor := _scriptProcessor w;
       audioContexts := audioContexts w;
       mediaStreams := mediaStreams w;
       connections := connections w;
       processors := processors w;
       started := started w;
       sent := sent w;
       errors := errors w;
       alerts := alerts w |}
  end.

Definition transcribe (m : LiveServerMessage) (w : World) : World :=
  pushTranscription "user" (inputTranscription m)
    (pushTranscription "gemini" (outputTranscription m) w).

(** [onmessage].  The handler is taken as running to its end before the
    next callback starts (the [await] inside it waits for a function that
    does no asynchronous work).  It stops where something throws: at
    line 76 nothing has been done yet; when [decode] ([atob]) or
    [decodeAudioData] throws, line 79 has run, nothing is scheduled and no
    transcription is added. *)
Definition onmessage (m : LiveServerMessage) (now : Q) (w : World) : World :=
  match audioData m with
  | TypeError => w
  | Found audio =>
    match audio, outputAudioCtxRef w with
    | Some ((String _ _) as text), Some _ =>
      let w1 := syncNextStartTime now w in
      match decode text with
      | None => w1
      | Some data =>
        match decodeAudioData data with
        | Ok b => transcribe m (startSource b w1)
        | Throw _ => w1
        end
      end
    | _, _ => transcribe m w
    end
  end.

(** [source.onended]. *)
Definition onended (source : nat) (w : World) : World :=
  {| isLiveActive := isLiveActive w;
     liveTranscription := liveTranscription w;
     liveSessionRef := liveSessionRef w;
     nextStartTimeRef := nextStartTimeRef w;
     sourcesRef := set_delete source (sourcesRef w);
     inputAudioCtxRef := inputAudioCtxRef w;
     outputAudioCtxRef := outputAudioCtxRef w;
     _scriptProcessor := _scriptProcessor w;
     audioContexts := audioContexts w;
     mediaStreams := mediaStreams w;
     connections := connections w;
     processors := processors w;
     started := started w;
     sent := sent w;
     errors := errors w;
     alerts := alerts w |}.

(** [onclose: () => setIsLiveActive(false)], delivered when connection [k]
    has closed. *)
Definition onclose (k : nat) (w : World) : World :=
  {| isLiveActive := false;
     liveTranscription := liveTranscription w;
     liveSessionRef := liveSessionRef w;
     nextStartTimeRef := nextStartTimeRef w;
     sourcesRef := sourcesRef w;
     inputAudioCtxRef := inputAudioCtxRef w;
     outputAudioCtxRef := outputAudioCtxRef w;
     _scriptProcessor := _scriptProcessor w;
     audioContexts := audioContexts w;
     mediaStreams := mediaStreams w;
     connections := update k Closed (connections w);
     processors := processors w;
     started := started w;
     sent := sent w;
     errors := errors w;
     alerts := alerts w |}.

(** [onerror: (e) => console.error(e)]. *)
Definition onerror (e : string) (w : World) : World :=
  {| isLiveActive := isLiveActive w;
     liveTranscription := liveTranscription w;
     liveSessionRef := liveSessionRef w;
     nextStartTimeRef := nextStartTimeRef w;
     sourcesRef := sourcesRef w;
     inputAudioCtxRef := inputAudioCtxRef w;
     outputAudioCtxRef := outputAudioCtxRef w;
     _scriptProcessor := _scriptProcessor w;
     audioContexts := audioContexts w;
     mediaStreams := mediaStreams w;
     connections := connections w;
     processors := processors w;
     started := started w;
     sent := sent w;
     errors := errors w ++ [e];
     alerts := alerts w |}.

(** [stopLive]: closes the session held in [liveSessionRef] if there is
    one, clears [isLiveActive], and disconnects [window._scriptProcessor] if
    it is set. *)
Definition stopLive (w : World) : World :=
  {| isLiveActive := false;
     liveTranscription := liveTranscription w;
     liveSessionRef := liveSessionRef w;
     nextStartTimeRef := nextStartTimeRef w;
     sourcesRef := sourcesRef w;
     inputAudioCtxRef := inputAudioCtxRef w;
     outputAudioCtxRef := outputAudioCtxRef w;
     _scriptProcessor := _scriptProcessor w;
     audioContexts := audioContexts w;
     mediaStreams := mediaStreams w;
     connections :=
       match liveSessionRef w with
       | Some k => update k Closed (connections w)
       | None => connections w
       end;
     processors :=
       match _scriptProcessor w with
       | Some p => update p false (processors w)
       | None => processors w
       end;
     started := started w;
     sent := sent w;
     errors := errors w;
     alerts := alerts w |}.

(** The round button: [onClick={isLiveActive ? stopLive : startLive}]. *)
Definition onClick (granted : bool) (w : World) : World :=
  if isLiveActive w then stopLive w else startLive granted w.

(** The events that drive the component. *)
Inductive Event : Type :=
| Click (granted : bool)
| StartLive (granted : bool)
| StopLive
| OnOpen (k : nat)
| OnAudioProcess (k : nat) (inputData : list Q)
| OnMessage (m : LiveServerMessage) (now : Q)
| OnEnded (source : nat)
| OnClose (k : nat)
| OnError (e : string).

Definition step (w : World) (ev : Event) : World :=
  match ev with
  | Click granted => onClick granted w
  | StartLive granted => startLive granted w
  | StopLive => stopLive w
  | OnOpen k => onopen k w
  | OnAudioProcess k inputData => onaudioprocess k inputData w
  | OnMessage m now => onmessage m now w
  | OnEnded source => onended source w
  | OnClose k => onclose k w
  | OnError e => onerror e w
  end.

Definition run (evs : list Event) (w : World) : World :=
  fold_left step evs w.

Definition enqueue_all (bs : list (AudioBuffer * Q)) (w : World) : World :=
  fold_left (fun w bn => enqueue (fst bn) (snd bn) w) bs w.

(** The message that carries [data] as the inline audio of its model
    turn, and no transcription. *)
Definition audio_of_bytes (data : list byte) : LiveServerMessage :=
  {| modelTurn :=
       Some {| GenAI.parts :=
                 Some [{| GenAI.inlineData :=
                            Some {| GenAI.data := Some (encode data);
                                    GenAI.mimeType := None |};
                          GenAI.text := None |}] |};
     outputTranscription := None;
     inputTranscription := None |}.

(** A message carrying [frames] frames of silence and no transcription. *)
Definition audio_message (frames : Z) : LiveServerMessage :=
  audio_of_bytes (repeat x00 (Z.to_nat (2 * frames))).

(** ** Properties stated on runs *)

(** Consecutive sources abut: each starts where the previous one ends. *)
Fixpoint gapless (l : list StartedSource) : Prop :=
  match l with
  | a :: (b :: _) as rest =>
    (when b == when a + duration (buffer a))%Q /\ gapless rest
  | _ => True
  end.

(** Start times never decrease along the list. *)
Fixpoint nondecreasing (l : list StartedSource) : Prop :=
  match l with
  | a :: (b :: _) as rest => (when a <= when b)%Q /\ nondecreasing rest
  | _ => True
  end.

(** Every call of the sequence finds the device clock at or before
    [nextStartTimeRef]. *)
Fixpoint back_to_back (bs : list (AudioBuffer * Q)) (w : World) : Prop :=
  match bs with
  | [] => True
  | (b, now) :: rest =>
    (now <= nextStartTimeRef w)%Q /\ back_to_back rest (enqueue b now w)
  end.

(** [abuts t l]: the first source of [l] starts at [t] and each next one
    where its predecessor ends. *)
Fixpoint abuts (t : Q) (l : list StartedSource) : Prop :=
  match l with
  | [] => True
  | a :: rest => (when a == t)%Q /\ abuts (when a + duration (buffer a)) rest
  end.

(** Invariant of the schedule: no started source ends after
    [nextStartTimeRef], and start times never decrease. *)
Definition schedule_ok (w : World) : Prop :=
  Forall (fun s => (when s + duration (buffer s) <= nextStartTimeRef w)%Q)
         (started w) /\
  nondecreasing (started w).

(** The sources started between [w] and a later world [w']. *)
Definition started_since (w w' : World) : list StartedSource :=
  skipn (length (started w)) (started w').

Definition connection (k : nat) (w : World) : option ConnectionState :=
  nth_error (connections w) k.

Definition capture_connected (w : World) : option bool :=
  match _scriptProcessor w with
  | Some p => nth_error (processors w) p
  | None => None
  end.

Definition session_closed (w : World) : Prop :=
  match liveSessionRef w with
  | Some k => connection k w = Some Closed
  | None => True
  end.

(** What the specification asks of [cancelAll] at clock time [now]. *)
Definition playback_cancelled (now : Q) (w' : World) : Prop :=
  sourcesRef w' = [] /\ nextStartTimeRef w' == now.

(** What the specification asks of the teardown: transport closed,
    playback cancelled, capture released, session no longer active. *)
Definition torn_down (w' : World) : Prop :=
  isLiveActive w' = false /\ sourcesRef w' = [] /\
  session_closed w' /\ capture_connected w' <> Some true.

(** What the specification asks of a rejected [start()]. *)
Definition start_rejected (w w' : World) : Prop :=
  connections w' = connections w /\
  liveSessionRef w' = liveSessionRef w /\
  outputAudioCtxRef w' = outputAudioCtxRef w /\
  liveTranscription w' = liveTranscription w /\
  started w' = started w.

(** The scheduler's part of the world. *)
Definition scheduler (w : World) : list nat * Q * list StartedSource :=
  (sourcesRef w, nextStartTimeRef w, started w).

(** Decoding the encoding of [samples] gives back as many samples, each
    within [1/32768] of the original. *)
Definition round_trip_ok (samples : list Q) : Prop :=
  exists b,
    decodeAudioData (pcm_of_input samples) = Ok b /\
    Forall2 (fun x y => (Qabs (x - y) <= 1 # 32768)%Q) samples (channelData b).

(** Decoding fails exactly on byte sequences of odd length. *)
Definition fails_iff_odd_length (data : list byte) : Prop :=
  succeeds (decodeAudioData data) = false <-> Nat.even (length data) = false.

(** The buffer [decodeAudioData] returns for [frames] frames of silence. *)
Definition decoded_silence (frames : Z) : AudioBuffer :=
  {| channelData := repeat (0 # 32768)%Q (Z.to_nat frames);
     sampleRate := 24000 |}.

(** Worlds used in the examples: a session that is active and has one
    second of audio scheduled, and the three-buffer scenario. *)
Definition active_world : World :=
  run [Click true; OnOpen 0; OnMessage (audio_message 24000) 0] initial.

Definition scenario_A : World :=
  run [Click true; OnOpen 0;
       OnMessage (audio_message 24000) 0;
       OnMessage (audio_message 12000) 0;
       OnMessage (audio_message 48000) 0] initial.

(** The set of sources is duplicate-free and holds only nodes that were
    started; nodes are numbered in the order of their start. *)
Definition sources_ok (w : World) : Prop :=
  NoDup (sourcesRef w) /\
  Forall (fun n => (n < length (started w))%nat) (sourcesRef w) /\
  map node (started w) = seq 0 (length (started w)).

(** The connection whose opening was handled last in a sequence of
    events. *)
Definition last_opened (evs : list Event) : option nat :=
  fold_left (fun acc ev => match ev with OnOpen k => Some k | _ => acc end)
            evs None.

(** [window._scriptProcessor] is the processor created last, and it is set
    exactly when [liveSessionRef] is. *)
Definition refs_ok (w : World) : Prop :=
  match _scriptProcessor w with
  | Some p => S p = length (processors w) /\ liveSessionRef w <> None
  | None => processors w = [] /\ liveSessionRef w = None
  end.

(** The cases in which [onmessage] runs to its end: there is no audio to
    play (none or empty in the message, or no output context), or the
    audio is base64 text of an even, non-zero number of bytes. *)
Definition handler_completes (m : LiveServerMessage) (w : World) : Prop :=
  audioData m = Found None \/
  audioData m = Found (Some EmptyString) \/
  ((exists audio, audioData m = Found audio) /\
   outputAudioCtxRef w = None) \/
  exists text data,
    audioData m = Found (Some text) /\
    decode text = Some data /\
    data <> [] /\ Nat.even (length data) = true.

(** The transcript entries a message carries, in the order [onmessage]
    appends them. *)
Definition transcriptions (m : LiveServerMessage) : list (string * string) :=
  match outputTranscription m with
  | Some t => [("gemini"%string, t)]
  | None => []
  end ++
  match inputTranscription m with
  | Some t => [("user"%string, t)]
  | None => []
  end.

(** ** The audio tools: [handleTTS] and [handleTranscription]

    Text is modelled by strings of 8-bit characters.  A request to the
    model is an asynchronous call; its outcome is an input of the step that
    runs once it has settled. *)

Inductive Promise (A : Type) : Type :=
| Fulfilled (a : A)
| Rejected (reason : string).
Arguments Fulfilled {A} a.
Arguments Rejected {A} reason.

(** [response.candidates?.[0]?.content?.parts?.[0]?.inlineData?.data]. *)
Definition speech_data (response : GenAI.GenerateContentResponse)
  : option string :=
  match first (GenAI.candidates response) with
  | Some candidate =>
    match GenAI.content candidate with
    | Some content =>
      match first (GenAI.parts content) with
      | Some part =>
        match GenAI.inlineData part with
        | Some blob => GenAI.data blob
        | None => None
        end
      | None => None
      end
    | None => None
    end
  | None => None
  end.

(** [generateSpeech], given how the [generateContent] call settled. *)
Definition generateSpeech
    (api : Promise GenAI.GenerateContentResponse) : Promise string :=
  match api with
  | Rejected reason => Rejected reason
  | Fulfilled response =>
    match speech_data response with
    | Some (String c rest) => Fulfilled (String c rest)
    | _ => Rejected "No speech audio returned"
    end
  end.

(** ECMAScript white space and line terminators among the 8-bit
    characters. *)
Definition is_white_space (c : ascii) : bool :=
  let n := Base64.code c in
  (n =? 9) || (n =? 10) || (n =? 11) || (n =? 12) || (n =? 13) ||
  (n =? 32) || (n =? 160).

Fixpoint trimStart (s : list ascii) : list ascii :=
  match s with
  | c :: r => if is_white_space c then trimStart r else s
  | [] => []
  end.

(** [s.trim()]. *)
Definition trim (s : string) : string :=
  string_of_list_ascii
    (rev (trimStart (rev (trimStart (list_ascii_of_string s))))).

(** [!s.trim()]. *)
Definition blank (s : string) : bool :=
  match trim s with
  | EmptyString => true
  | String _ _ => false
  end.

(** The state of the tools tab and what its handlers did. *)
Record Tools : Type := {
  transcriptionResult : option string;
  isTranscribing : bool;
  ttsInput : string;
  isGeneratingSpeech : bool;
  tts_contexts : nat;                 (* AudioContexts made by handleTTS *)
  tts_started : list AudioBuffer;     (* source.start() calls *)
  transcribe_requests : list (option string * string);
                                      (* transcribeAudio(base64, mimeType) *)
  unhandled : list string             (* rejections nothing catches *)
}.

Definition tools_initial : Tools := {|
  transcriptionResult := Some EmptyString;
  isTranscribing := false;
  ttsInput := EmptyString;
  isGeneratingSpeech := false;
  tts_contexts := 0;
  tts_started := [];
  transcribe_requests := [];
  unhandled := []
|}.

Definition exception_name (e : DOMException) : string :=
  match e with
  | RangeError => "RangeError"
  | NotSupportedError => "NotSupportedError"
  end.

(** The [try] block of [handleTTS] from the point where [generateSpeech]
    has settled, followed by its [finally]. *)
Definition handleTTS_settled
    (api : Promise GenAI.GenerateContentResponse) (t : Tools) : Tools :=
  match generateSpeech api with
  | Rejected reason =>
    {| transcriptionResult := transcriptionResult t;
       isTranscribing := isTranscribing t;
       ttsInput := ttsInput t;
       isGeneratingSpeech := false;
       tts_contexts := tts_contexts t;
       tts_started := tts_started t;
       transcribe_requests := transcribe_requests t;
       unhandled := unhandled t ++ [reason] |}
  | Fulfilled base64 =>
    match
      match decode base64 with
      | None => inr "InvalidCharacterError"%string
      | Some bytes =>
        match decodeAudioData bytes with
        | Throw e => inr (exception_name e)
        | Ok b => inl b
        end
      end
    with
    | inl b =>
      {| transcriptionResult := transcriptionResult t;
         isTranscribing := isTranscribing t;
         ttsInput := ttsInput t;
         isGeneratingSpeech := false;
         tts_contexts := S (tts_contexts t);
         tts_started := tts_started t ++ [b];
         transcribe_requests := transcribe_requests t;
         unhandled := unhandled t |}
    | inr reason =>
      {| transcriptionResult := transcriptionResult t;
         isTranscribing := isTranscribing t;
         ttsInput := ttsInput t;
         isGeneratingSpeech := false;
         tts_contexts := S (tts_contexts t);
         tts_started := tts_started t;
         transcribe_requests := transcribe_requests t;
         unhandled := unhandled t ++ [reason] |}
    end
  end.

(** [handleTTS] up to its first [await]. *)
Definition handleTTS_started (t : Tools) : Tools :=
  {| transcriptionResult := transcriptionResult t;
     isTranscribing := isTranscribing t;
     ttsInput := ttsInput t;
     isGeneratingSpeech := true;
     tts_contexts := tts_contexts t;
     tts_started := tts_started t;
     transcribe_requests := transcribe_requests t;
     unhandled := unhandled t |}.

Definition handleTTS
    (api : Promise GenAI.GenerateContentResponse) (t : Tools) : Tools :=
  if blank (ttsInput t) then t
  else handleTTS_settled api (handleTTS_started t).

(** [s.split(',')]. *)
Fixpoint split_comma (s : list ascii) : list (list ascii) :=
  match s with
  | [] => [[]]
  | c :: r =>
    if Ascii.eqb c "," then [] :: split_comma r
    else
      match split_comma r with
      | piece :: pieces => (c :: piece) :: pieces
      | [] => [[c]]
      end
  end.

(** [(reader.result as string).split(',')[1]]. *)
Definition data_url_payload (result : string) : option string :=
  option_map string_of_list_ascii
    (nth_error (split_comma (list_ascii_of_string result)) 1).

(** [handleTranscription]: with a file chosen (given here by its MIME
    type) the spinner is switched on and the file is read; without one
    nothing happens. *)
Definition handleTranscription (file : option string) (t : Tools) : Tools :=
  match file with
  | None => t
  | Some _ =>
    {| transcriptionResult := transcriptionResult t;
       isTranscribing := true;
       ttsInput := ttsInput t;
       isGeneratingSpeech := isGeneratingSpeech t;
       tts_contexts := tts_contexts t;
       tts_started := tts_started t;
       transcribe_requests := transcribe_requests t;
       unhandled := unhandled t |}
  end.

(** [reader.onload] for a file of MIME type [file_type] read as [result],
    given how the [transcribeAudio] request (whose value is
    [response.text]) settled. *)
Definition reader_onload (file_type result : string)
    (api : Promise (option string)) (t : Tools) : Tools :=
  let base64 := data_url_payload result in
  match api with
  | Fulfilled text =>
    {| transcriptionResult := text;
       isTranscribing := false;
       ttsInput := ttsInput t;
       isGeneratingSpeech := isGeneratingSpeech t;
       tts_contexts := tts_contexts t;
       tts_started := tts_started t;
       transcribe_requests := transcribe_requests t ++ [(base64, file_type)];
       unhandled := unhandled t |}
  | Rejected reason =>
    {| transcriptionResult := transcriptionResult t;
       isTranscribing := isTranscribing t;
       ttsInput := ttsInput t;
       isGeneratingSpeech := isGeneratingSpeech t;
       tts_contexts := tts_contexts t;
       tts_started := tts_started t;
       transcribe_requests := transcribe_requests t ++ [(base64, file_type)];
       unhandled := unhandled t ++ [reason] |}
  end.

(** [onChange={e => setTtsInput(e.target.value)}]. *)
Definition setTtsInput (s : string) (t : Tools) : Tools :=
  {| transcriptionResult := transcriptionResult t;
     isTranscribing := isTranscribing t;
     ttsInput := s;
     isGeneratingSpeech := isGeneratingSpeech t;
     tts_contexts := tts_contexts t;
     tts_started := tts_started t;
     transcribe_requests := transcribe_requests t;
     unhandled := unhandled t |}.

(** The events of the tools tab. *)
Inductive ToolsEvent : Type :=
| SetTtsInput (s : string)
| HandleTTS (api : Promise GenAI.GenerateContentResponse)
| HandleTranscription (file : option string)
| ReaderOnload (file_type result : string) (api : Promise (option string)).

Definition tools_step (t : Tools) (ev : ToolsEvent) : Tools :=
  match ev with
  | SetTtsInput s => setTtsInput s t
  | HandleTTS api => handleTTS api t
  | HandleTranscription file => handleTranscription file t
  | ReaderOnload file_type result api => reader_onload file_type result api t
  end.

Definition tools_run (evs : list ToolsEvent) (t : Tools) : Tools :=
  fold_left tools_step evs t.

(** A file has been read and its transcription has come back. *)
Definition transcription_done (ev : ToolsEvent) : bool :=
  match ev with
  | ReaderOnload _ _ (Fulfilled _) => true
  | _ => false
  end.

(** * Proofs *)

(** ** Typed arrays *)

(** Induction on a byte sequence two bytes at a time. *)
Lemma list_pair_ind {A : Type} (P : list A -> Prop) :
  P [] -> (forall a, P [a]) ->
  (forall a b l, P l -> P (a :: b :: l)) ->
  forall l, P l.
Proof.
  intros H0 H1 H2. fix IH 1.
  intros [|a [|b l]]; [exact H0 | apply H1 | apply H2, IH].
Qed.

Module TypedArrayFacts.
Import TypedArray.

Lemma ToInt16_range (n : Z) : -32768 <= ToInt16 n <= 32767.
Proof.
  unfold ToInt16. pose proof (Z.mod_pos_bound n 65536 eq_refl).
  destruct (32768 <=? n mod 65536) eqn:E;
    [apply Z.leb_le in E | apply Z.leb_gt in E]; lia.
Qed.

Lemma ToInt16_congruent (n : Z) : ToInt16 n mod 65536 = n mod 65536.
Proof.
  unfold ToInt16.
  destruct (32768 <=? n mod 65536).
  - replace (n mod 65536 - 65536) with (n mod 65536 + (-1) * 65536) by lia.
    rewrite Z.mod_add by lia. apply Z.mod_mod. lia.
  - apply Z.mod_mod. lia.
Qed.

Lemma ToInt16_in_range (n : Z) : -32768 <= n <= 32767 -> ToInt16 n = n.
Proof.
  intros H. unfold ToInt16.
  destruct (Z.leb_spec 32768 (n mod 65536)) as [E|E].
  - destruct (Z.le_gt_cases 0 n).
    + rewrite Z.mod_small in E by lia. lia.
    + replace n with (n + 65536 + (-1) * 65536) by lia.
      rewrite Z.mod_add by lia. rewrite Z.mod_small by lia. lia.
  - destruct (Z.le_gt_cases 0 n).
    + rewrite Z.mod_small by lia. lia.
    + replace n with (n + 65536 + (-1) * 65536) in E by lia.
      rewrite Z.mod_add in E by lia. rewrite Z.mod_small in E by lia. lia.
Qed.

Lemma ToInt16_mod (n : Z) : ToInt16 (n mod 65536) = ToInt16 n.
Proof. unfold ToInt16. rewrite Z.mod_mod by lia. reflexivity. Qed.

Lemma Z_of_byte_range (b : byte) : 0 <= Z_of_byte b < 256.
Proof.
  unfold Z_of_byte. pose proof (Byte.to_N_bounded b). lia.
Qed.

Lemma Z_of_byte_of_Z (z : Z) : Z_of_byte (byte_of_Z z) = z mod 256.
Proof.
  unfold Z_of_byte, byte_of_Z.
  pose proof (Z.mod_pos_bound z 256 eq_refl) as Hb.
  destruct (Byte.of_N (Z.to_N (z mod 256))) as [b|] eqn:E.
  - apply Byte.to_of_N in E. rewrite E. apply Z2N.id. lia.
  - apply Byte.of_N_None_iff in E. lia.
Qed.

Lemma bytes_value (v : Z) :
  Z_of_byte (byte_of_Z v) + 256 * Z_of_byte (byte_of_Z (v / 256))
  = v mod 65536.
Proof.
  rewrite !Z_of_byte_of_Z.
  change 65536 with (256 * 256). rewrite Z.rem_mul_r by lia. reflexivity.
Qed.

Lemma int16_of_bytes_of_int16 (v : Z) :
  int16_of_bytes (byte_of_Z v) (byte_of_Z (v / 256)) = ToInt16 v.
Proof.
  unfold int16_of_bytes. rewrite bytes_value. apply ToInt16_mod.
Qed.

Lemma int16_elements_of_Int16Array (a : list Z) :
  int16_elements (Uint8Array_of_Int16Array a) = map ToInt16 a.
Proof.
  induction a as [|v a IH]; simpl; [reflexivity|].
  rewrite int16_of_bytes_of_int16. f_equal. exact IH.
Qed.

Lemma Uint8Array_length (a : list Z) :
  length (Uint8Array_of_Int16Array a) = (2 * length a)%nat.
Proof.
  unfold Uint8Array_of_Int16Array.
  induction a as [|v a IH]; simpl; [reflexivity|].
  rewrite IH. lia.
Qed.

Lemma int16_elements_length (data : list byte) :
  length (int16_elements data) = Nat.div2 (length data).
Proof.
  induction data as [| |lo hi rest IH] using list_pair_ind;
    simpl; congruence.
Qed.

End TypedArrayFacts.

(** ** The sample codec *)

Module CodecFacts.
Import TypedArray TypedArrayFacts.

(** The integer part lies between zero and the number, less than one
    away from it. *)
Lemma truncate_spec (x : Q) :
  (inject_Z (Z.abs (truncate x)) <= Qabs x
   /\ Qabs x < inject_Z (Z.abs (truncate x)) + 1)%Q.
Proof.
  destruct x as [n d]. unfold truncate, Qabs, Qle, Qlt, inject_Z, Qplus.
  cbn [Qnum Qden].
  pose proof (Z.quot_rem' n (Z.pos d)) as E.
  pose proof (Z.rem_bound_abs n (Z.pos d) ltac:(lia)) as B.
  destruct (Z.le_gt_cases 0 n) as [Hn|Hn].
  - pose proof (Z.rem_nonneg n (Z.pos d) ltac:(lia) Hn).
    pose proof (Z.quot_pos n (Z.pos d) Hn ltac:(lia)). nia.
  - pose proof (Z.rem_nonpos n (Z.pos d) ltac:(lia) ltac:(lia)).
    assert (n ÷ Z.pos d <= 0) by nia.
    nia.
Qed.

Lemma truncate_scaled_range (x : Q) :
  (-1 <= x)%Q -> (x < 1)%Q -> -32768 <= truncate (x * 32768) <= 32767.
Proof.
  destruct x as [n d]. unfold truncate, Qle, Qlt, Qmult. cbn [Qnum Qden].
  rewrite Pos.mul_1_r. intros Hlo Hhi.
  pose proof (Z.quot_rem' (n * 32768) (Z.pos d)) as E.
  pose proof (Z.rem_bound_abs (n * 32768) (Z.pos d) ltac:(lia)) as B.
  destruct (Z.le_gt_cases 0 n) as [Hn|Hn].
  - pose proof (Z.rem_nonneg (n * 32768) (Z.pos d) ltac:(lia) ltac:(lia)).
    nia.
  - pose proof (Z.rem_nonpos (n * 32768) (Z.pos d) ltac:(lia) ltac:(lia)).
    nia.
Qed.

(** Quantisation error of one sample whose scaled value fits 16 bits. *)
Lemma quantisation_error (x : Q) :
  (Qabs (x - (truncate (x * 32768) # 32768)) <= 1 # 32768)%Q.
Proof.
  destruct x as [n d]. unfold truncate, Qabs, Qle, Qminus, Qplus, Qopp, Qmult.
  cbn [Qnum Qden]. rewrite Pos.mul_1_r.
  pose proof (Z.quot_rem' (n * 32768) (Z.pos d)) as E.
  pose proof (Z.rem_bound_abs (n * 32768) (Z.pos d) ltac:(lia)) as B.
  rewrite Pos2Z.inj_mul. nia.
Qed.

Lemma fill_all (dst src : list Q) :
  length dst = length src -> fill dst src = src.
Proof.
  revert src. induction dst as [|d dst IH]; intros [|s src] H;
    simpl in *; try congruence.
  f_equal. apply IH. lia.
Qed.

Lemma even_length_cases (data : list byte) :
  Nat.even (length data) = true ->
  data = [] \/ exists lo hi rest, data = lo :: hi :: rest.
Proof.
  destruct data as [|lo [|hi rest]]; simpl; intros H;
    [now left | discriminate | right; eauto].
Qed.

Lemma decodeAudioData_even (data : list byte) :
  Nat.even (length data) = true -> data <> [] ->
  decodeAudioData data =
  Ok {| channelData := map (fun v => v # 32768) (int16_elements data);
        sampleRate := 24000 |}.
Proof.
  intros He Hne. unfold decodeAudioData, Int16Array_of_buffer.
  rewrite He. cbn [bind].
  destruct (even_length_cases data He) as [->|(lo & hi & rest & ->)];
    [congruence|].
  cbn [int16_elements length createBuffer bind channelData sampleRate].
  f_equal. f_equal.
  apply (fill_all (repeat 0%Q (S (length (int16_elements rest))))
                  (map _ (int16_of_bytes lo hi :: int16_elements rest))).
  rewrite repeat_length. cbn [map length]. now rewrite length_map.
Qed.

Lemma decodeAudioData_odd (data : list byte) :
  Nat.even (length data) = false -> decodeAudioData data = Throw RangeError.
Proof.
  intros H. unfold decodeAudioData, Int16Array_of_buffer. now rewrite H.
Qed.

Lemma decodeAudioData_empty : decodeAudioData [] = Throw NotSupportedError.
Proof. reflexivity. Qed.

Lemma decoded_sample_range (v : Z) :
  -32768 <= v <= 32767 -> (-1 <= v # 32768 /\ v # 32768 < 1)%Q.
Proof. intros H. unfold Qle, Qlt. cbn [Qnum Qden]. lia. Qed.

Lemma int16_elements_range (data : list byte) :
  Forall (fun v => -32768 <= v <= 32767) (int16_elements data).
Proof.
  induction data as [| |lo hi rest IH] using list_pair_ind;
    cbn [int16_elements]; constructor; [apply ToInt16_range | exact IH].
Qed.

Lemma pcm_nth (a : list Z) (i : nat) (v : Z) :
  nth_error a i = Some v ->
  nth_error (Uint8Array_of_Int16Array a) (2 * i) = Some (byte_of_Z v) /\
  nth_error (Uint8Array_of_Int16Array a) (2 * i + 1)
  = Some (byte_of_Z (v / 256)).
Proof.
  revert i. induction a as [|u a IH]; intros [|i] H; try discriminate.
  - injection H as ->. split; reflexivity.
  - replace (2 * S i)%nat with (S (S (2 * i))) by lia.
    cbn [nth_error] in H. apply IH in H.
    cbn [Uint8Array_of_Int16Array flat_map bytes_of_int16 app nth_error Nat.add].
    exact H.
Qed.

Lemma setInt16_in_range (x : Q) :
  -32768 <= truncate x <= 32767 -> setInt16 x = truncate x.
Proof. apply ToInt16_in_range. Qed.

(** The decoder reads back what the encoder stored. *)
Lemma decode_pcm_of_input (inputData : list Q) :
  inputData <> [] ->
  decodeAudioData (pcm_of_input inputData) =
  Ok {| channelData := map (fun v => v # 32768) (int16_of_input inputData);
        sampleRate := 24000 |}.
Proof.
  intros Hne. unfold pcm_of_input.
  rewrite decodeAudioData_even.
  - rewrite int16_elements_of_Int16Array. f_equal. f_equal. f_equal.
    unfold int16_of_input. rewrite map_map. apply map_ext.
    intros x. apply ToInt16_in_range, ToInt16_range.
  - rewrite Uint8Array_length. rewrite Nat.even_mul. reflexivity.
  - destruct inputData; [congruence | discriminate].
Qed.

End CodecFacts.

Module SampleCodec.
Import TypedArray TypedArrayFacts CodecFacts.

(** C7.  The capture loop does not clamp.  Each input sample [x] is scaled
    by 32768 and truncated towards zero to an integer [t]; the element
    stored is the 16-bit two's complement value congruent to [t] modulo
    2^16, written low byte first.  When [t] lies outside
    [-32768, 32767] the stored value is [t] moved by a multiple of 65536
    into that interval, hence differs from [t]; up to one period beyond
    the interval it also differs from the bound a clamp would give. *)
Theorem encode_wraps_without_clamping (inputData : list Q) (i : nat) (x : Q) :
  nth_error inputData i = Some x ->
  let t := truncate (x * 32768) in
  exists v lo hi,
    nth_error (int16_of_input inputData) i = Some v /\
    nth_error (pcm_of_input inputData) (2 * i) = Some lo /\
    nth_error (pcm_of_input inputData) (2 * i + 1) = Some hi /\
    (inject_Z (Z.abs t) <= Qabs (x * 32768) < inject_Z (Z.abs t) + 1)%Q /\
    -32768 <= v <= 32767 /\
    v mod 65536 = t mod 65536 /\
    v = t - 65536 * ((t + 32768) / 65536) /\
    Z_of_byte lo + 256 * Z_of_byte hi = t mod 65536 /\
    (t < -32768 \/ 32767 < t -> v <> t) /\
    (32767 < t <= 98302 -> v = t - 65536 /\ v <> 32767) /\
    (-98303 <= t < -32768 -> v = t + 65536 /\ v <> -32768).
Proof.
  intros Hx t.
  assert (Hv : nth_error (int16_of_input inputData) i = Some (ToInt16 t)).
  { unfold int16_of_input. rewrite nth_error_map, Hx. reflexivity. }
  destruct (pcm_nth _ _ _ Hv) as [Hlo Hhi].
  exists (ToInt16 t), (byte_of_Z (ToInt16 t)), (byte_of_Z (ToInt16 t / 256)).
  pose proof (ToInt16_range t) as Hr.
  pose proof (ToInt16_congruent t) as Hc.
  assert (Hw : ToInt16 t = t - 65536 * ((t + 32768) / 65536)).
  { assert (Hd : (ToInt16 t + 32768) mod 65536 = (t + 32768) mod 65536).
    { rewrite <- Z.add_mod_idemp_l, Hc, Z.add_mod_idemp_l by lia.
      reflexivity. }
    rewrite (Z.mod_small (ToInt16 t + 32768)) in Hd by lia.
    pose proof (Z.div_mod (t + 32768) 65536 ltac:(lia)). lia. }
  assert (Hup : 32767 < t <= 98302 -> ToInt16 t = t - 65536).
  { intros Ht. rewrite Hw. replace ((t + 32768) / 65536) with 1; [lia|].
    apply (Z.div_unique _ _ 1 (t + 32768 - 65536)); lia. }
  assert (Hdn : -98303 <= t < -32768 -> ToInt16 t = t + 65536).
  { intros Ht. rewrite Hw. replace ((t + 32768) / 65536) with (-1); [lia|].
    apply (Z.div_unique _ _ (-1) (t + 32768 + 65536)); lia. }
  repeat split; try assumption; try apply truncate_spec; try lia.
  rewrite bytes_value. exact Hc.
Qed.

(** At full scale the stored value is the wrapped one, not 32767. *)
Example encode_full_scale :
  int16_of_input [1%Q] = [-32768] /\ pcm_of_input [1%Q] = [x00; x80].
Proof. split; reflexivity. Qed.

Lemma encode_wraps_without_clamping_witness :
  exists v lo hi,
    nth_error (int16_of_input [1 # 2; 3 # 2]%Q) 1 = Some v /\
    nth_error (pcm_of_input [1 # 2; 3 # 2]%Q) 2 = Some lo /\
    nth_error (pcm_of_input [1 # 2; 3 # 2]%Q) 3 = Some hi /\
    v = -16384 /\ lo = x00 /\ hi = xc0.
Proof.
  destruct (encode_wraps_without_clamping [1 # 2; 3 # 2]%Q 1 (3 # 2)%Q
              eq_refl)
    as (v & lo & hi & Hv & Hlo & Hhi & _).
  exists v, lo, hi. repeat split; try assumption.
  - vm_compute in Hv. congruence.
  - vm_compute in Hlo. congruence.
  - vm_compute in Hhi. congruence.
Defined.

(** C8, as the code has it.  [decodeAudioData] is a function of the bytes
    alone.  It throws exactly when the byte length is odd (RangeError from
    the Int16Array view) or zero (NotSupportedError from createBuffer);
    on every other input it returns a 24 kHz buffer with one sample per
    byte pair, the pair read as a signed 16-bit little-endian integer and
    divided by 32768, so every sample lies in [-1, 1). *)
Theorem decodeAudioData_outcome (data : list byte) :
  (succeeds (decodeAudioData data) = false
   <-> Nat.even (length data) = false \/ data = []) /\
  match decodeAudioData data with
  | Ok b =>
    sampleRate b = 24000%positive /\
    channelData b = map (fun v => v # 32768) (int16_elements data) /\
    length (channelData b) = Nat.div2 (length data) /\
    Forall (fun y => (-1 <= y /\ y < 1)%Q) (channelData b)
  | Throw e =>
    e = if Nat.even (length data) then NotSupportedError else RangeError
  end /\
  (forall lo hi : byte,
      -32768 <= int16_of_bytes lo hi <= 32767 /\
      int16_of_bytes lo hi mod 65536 = Z_of_byte lo + 256 * Z_of_byte hi) /\
  (forall lo hi rest,
      int16_elements (lo :: hi :: rest)
      = int16_of_bytes lo hi :: int16_elements rest).
Proof.
  split; [|split; [|split]].
  - destruct (Nat.even (length data)) eqn:He.
    + destruct data as [|b0 data'].
      * simpl. intuition.
      * rewrite decodeAudioData_even by (assumption || discriminate).
        simpl. intuition discriminate.
    + rewrite decodeAudioData_odd by assumption. simpl. intuition.
  - destruct (Nat.even (length data)) eqn:He.
    + destruct data as [|b0 data'].
      * reflexivity.
      * rewrite decodeAudioData_even by (assumption || discriminate).
        cbn [sampleRate channelData].
        repeat split.
        -- rewrite length_map. apply int16_elements_length.
        -- apply Forall_map.
           eapply Forall_impl; [|apply int16_elements_range].
           intros v Hv. apply decoded_sample_range, Hv.
    + rewrite decodeAudioData_odd by assumption. reflexivity.
  - intros lo hi. split; [apply ToInt16_range|].
    unfold int16_of_bytes. rewrite ToInt16_congruent.
    pose proof (Z_of_byte_range lo). pose proof (Z_of_byte_range hi).
    apply Z.mod_small. lia.
  - reflexivity.
Qed.

(** C8 counterexample: the empty byte sequence has even length, yet
    decoding it throws. *)
Lemma decode_empty_fails : ~ fails_iff_odd_length [].
Proof.
  unfold fails_iff_odd_length. intros [H _].
  specialize (H eq_refl). discriminate H.
Qed.

(** C6, as the code has it.  For a non-empty sequence of samples in
    [-1, 1), decoding the encoded bytes gives back as many samples, each
    within 1/32768 of the original. *)
Theorem round_trip_within_quantisation (samples : list Q) :
  samples <> [] ->
  Forall (fun x => (-1 <= x /\ x < 1)%Q) samples ->
  round_trip_ok samples.
Proof.
  intros Hne Hr. unfold round_trip_ok.
  rewrite decode_pcm_of_input by assumption.
  eexists. split; [reflexivity|]. cbn [channelData].
  clear Hne. induction Hr as [|x l [Hlo Hhi] _ IH]; [constructor|].
  cbn [int16_of_input map]. constructor; [|exact IH].
  rewrite setInt16_in_range by (apply truncate_scaled_range; assumption).
  apply quantisation_error.
Qed.

Lemma round_trip_within_quantisation_witness :
  round_trip_ok [1 # 2; -1; -1 # 3; 0; 32767 # 32768]%Q.
Proof.
  apply round_trip_within_quantisation.
  - discriminate.
  - repeat constructor; unfold Qle, Qlt; simpl; lia.
Defined.

(** C6 counterexample: the sample 1.0 lies in [-1, 1] and comes back
    as -1.0; and the empty sequence, whose encoding cannot be decoded. *)
Lemma round_trip_full_scale_fails :
  Forall (fun x => (-1 <= x /\ x <= 1)%Q) [1%Q] /\
  decodeAudioData (pcm_of_input [1%Q])
  = Ok {| channelData := [(-32768 # 32768)%Q]; sampleRate := 24000 |} /\
  ~ round_trip_ok [1%Q] /\
  ~ round_trip_ok [].
Proof.
  split; [|split; [|split]].
  - repeat constructor; unfold Qle; simpl; lia.
  - reflexivity.
  - intros (b & Hd & Hf). vm_compute in Hd. injection Hd as <-.
    inversion Hf as [|x y l l' Hxy _]; subst.
    revert Hxy. unfold Qle. simpl. lia.
  - intros (b & Hd & _). discriminate Hd.
Qed.

End SampleCodec.

(** ** The playback schedule *)

Module ScheduleFacts.
Local Open Scope Q_scope.

Lemma duration_nonneg (b : AudioBuffer) : 0 <= duration b.
Proof. unfold duration, Qle. simpl. lia. Qed.

Lemma enqueue_started (b : AudioBuffer) (now : Q) (w : World) :
  started (enqueue b now w) =
  started w ++ [{| node := length (started w); buffer := b;
                   when := Qmax (nextStartTimeRef w) now |}].
Proof. reflexivity. Qed.

Lemma enqueue_nextStartTime (b : AudioBuffer) (now : Q) (w : World) :
  nextStartTimeRef (enqueue b now w)
  = Qmax (nextStartTimeRef w) now + duration b.
Proof. reflexivity. Qed.

Lemma transcribe_started (m : LiveServerMessage) (w : World) :
  started (transcribe m w) = started w.
Proof.
  unfold transcribe, pushTranscription.
  destruct (outputTranscription m), (inputTranscription m); reflexivity.
Qed.

Lemma transcribe_nextStartTime (m : LiveServerMessage) (w : World) :
  nextStartTimeRef (transcribe m w) = nextStartTimeRef w.
Proof.
  unfold transcribe, pushTranscription.
  destruct (outputTranscription m), (inputTranscription m); reflexivity.
Qed.

(** The four ways [onmessage] can go. *)
Lemma onmessage_cases (m : LiveServerMessage) (now : Q) (w : World) :
  (exists text data b,
      audioData m = Found (Some text) /\ decode text = Some data /\
      decodeAudioData data = Ok b /\
      onmessage m now w = transcribe m (enqueue b now w)) \/
  onmessage m now w = syncNextStartTime now w \/
  onmessage m now w = transcribe m w \/
  onmessage m now w = w.
Proof.
  unfold onmessage.
  destruct (audioData m) as [[[|c text]|]|]; auto.
  destruct (outputAudioCtxRef w); auto.
  destruct (decode (String c text)) as [data|] eqn:D; auto.
  destruct (decodeAudioData data) as [b|e] eqn:E; auto.
  left. exists (String c text), data, b. auto.
Qed.

Lemma onmessage_enqueue (m : LiveServerMessage) (now : Q) (w : World)
    (text : string) (data : list byte) (b : AudioBuffer) (ctx : nat) :
  audioData m = Found (Some text) -> decode text = Some data ->
  outputAudioCtxRef w = Some ctx ->
  decodeAudioData data = Ok b ->
  onmessage m now w = transcribe m (enqueue b now w).
Proof.
  intros Ha Ht Hc Hd. unfold onmessage. rewrite Ha, Hc.
  destruct text as [|c text].
  - cbv in Ht. injection Ht as <-. discriminate Hd.
  - rewrite Ht, Hd. reflexivity.
Qed.

Lemma abuts_gapless (a : StartedSource) (l : list StartedSource) :
  abuts (when a + duration (buffer a)) l -> gapless (a :: l).
Proof.
  revert a. induction l as [|b l IH]; intros a H; [exact I|].
  destruct H as [Hb Hl]. split; [exact Hb | apply IH, Hl].
Qed.

Lemma enqueue_all_abuts (bs : list (AudioBuffer * Q)) (w : World) :
  back_to_back bs w ->
  exists new,
    started (enqueue_all bs w) = started w ++ new /\
    map buffer new = map fst bs /\
    abuts (nextStartTimeRef w) new.
Proof.
  revert w. induction bs as [|[b now] rest IH]; intros w H.
  - exists []. simpl. rewrite app_nil_r. auto.
  - destruct H as [Hnow Hrest].
    destruct (IH _ Hrest) as (new & Hs & Hb & Ha).
    exists ({| node := length (started w); buffer := b;
               when := Qmax (nextStartTimeRef w) now |} :: new).
    change (enqueue_all ((b, now) :: rest) w)
      with (enqueue_all rest (enqueue b now w)).
    rewrite Hs, enqueue_started, <- app_assoc. repeat split.
    + cbn [map buffer fst]. now rewrite Hb.
    + cbn [when]. apply Q.max_l, Hnow.
    + exact Ha.
Qed.

Lemma started_since_app (w w' : World) (new : list StartedSource) :
  started w' = started w ++ new -> started_since w w' = new.
Proof.
  intros H. unfold started_since. rewrite H, skipn_app, skipn_all.
  now rewrite Nat.sub_diag.
Qed.

Lemma enqueue_all_snoc (bs : list (AudioBuffer * Q)) (b : AudioBuffer)
    (now : Q) (w : World) :
  enqueue_all (bs ++ [(b, now)]) w = enqueue b now (enqueue_all bs w).
Proof. unfold enqueue_all. now rewrite fold_left_app. Qed.

(** After a non-empty sequence of calls, [nextStartTimeRef] is the end of
    the source started last. *)
Lemma enqueue_all_end (bs : list (AudioBuffer * Q)) (w : World)
    (d : StartedSource) :
  bs <> [] ->
  nextStartTimeRef (enqueue_all bs w)
  = when (last (started (enqueue_all bs w)) d)
    + duration (buffer (last (started (enqueue_all bs w)) d)).
Proof.
  intros Hne. destruct (exists_last Hne) as (bs' & [b now] & ->).
  rewrite enqueue_all_snoc, enqueue_started, last_last. reflexivity.
Qed.

Lemma nondecreasing_snoc (l : list StartedSource) (e : StartedSource) :
  nondecreasing l -> Forall (fun s => when s <= when e) l ->
  nondecreasing (l ++ [e]).
Proof.
  induction l as [|a [|b l] IH]; intros Hn Hf.
  - exact I.
  - split; [|exact I]. now inversion Hf.
  - destruct Hn as [Hab Hn]. split; [exact Hab|].
    apply IH; [exact Hn | now inversion Hf].
Qed.

Lemma schedule_ok_weaken (w w' : World) :
  started w' = started w -> nextStartTimeRef w <= nextStartTimeRef w' ->
  schedule_ok w -> schedule_ok w'.
Proof.
  intros Hs Hn [Hf Hd]. unfold schedule_ok. rewrite Hs. split; [|exact Hd].
  eapply Forall_impl; [|exact Hf]. cbn beta. intros s Hle. lra.
Qed.

Lemma schedule_ok_enqueue (b : AudioBuffer) (now : Q) (w : World) :
  schedule_ok w -> schedule_ok (enqueue b now w).
Proof.
  intros [Hf Hd]. unfold schedule_ok.
  rewrite enqueue_started, enqueue_nextStartTime.
  pose proof (duration_nonneg b) as Hb.
  pose proof (Q.le_max_l (nextStartTimeRef w) now) as Hm.
  split.
  - apply Forall_app. split.
    + eapply Forall_impl; [|exact Hf]. cbn beta. intros s Hle. lra.
    + constructor; [|constructor]. cbn [when buffer]. lra.
  - apply nondecreasing_snoc; [exact Hd|].
    eapply Forall_impl; [|exact Hf]. cbn [when]. intros s Hle.
    pose proof (duration_nonneg (buffer s)). lra.
Qed.

Lemma step_nextStartTime (w : World) (ev : Event) :
  nextStartTimeRef w <= nextStartTimeRef (step w ev).
Proof.
  destruct ev as [g|g| |k|k i|m now|n|k|e]; cbn [step]; try apply Qle_refl.
  - unfold onClick. destruct (isLiveActive w); [apply Qle_refl|].
    destruct g; apply Qle_refl.
  - destruct g; apply Qle_refl.
  - destruct (onmessage_cases m now w)
      as [(text & data & b & _ & _ & _ & ->)|[->|[->| ->]]].
    + rewrite transcribe_nextStartTime, enqueue_nextStartTime.
      pose proof (duration_nonneg b).
      pose proof (Q.le_max_l (nextStartTimeRef w) now). lra.
    + apply Q.le_max_l.
    + rewrite transcribe_nextStartTime. apply Qle_refl.
    + apply Qle_refl.
Qed.

Lemma step_schedule_ok (w : World) (ev : Event) :
  schedule_ok w -> schedule_ok (step w ev).
Proof.
  intros H.
  destruct ev as [g|g| |k|k i|m now|n|k|e]; cbn [step];
    try (apply (schedule_ok_weaken w); [reflexivity | apply Qle_refl | exact H]).
  - unfold onClick. destruct (isLiveActive w); [|destruct g];
      (apply (schedule_ok_weaken w); [reflexivity | apply Qle_refl | exact H]).
  - destruct g;
      (apply (schedule_ok_weaken w); [reflexivity | apply Qle_refl | exact H]).
  - destruct (onmessage_cases m now w)
      as [(text & data & b & _ & _ & _ & ->)|[->|[->| ->]]].
    + apply (schedule_ok_weaken (enqueue b now w)).
      * apply transcribe_started.
      * rewrite transcribe_nextStartTime. apply Qle_refl.
      * apply schedule_ok_enqueue, H.
    + apply (schedule_ok_weaken w); [reflexivity | apply Q.le_max_l | exact H].
    + apply (schedule_ok_weaken w);
        [apply transcribe_started
        | rewrite transcribe_nextStartTime; apply Qle_refl | exact H].
    + exact H.
Qed.

Lemma run_schedule_ok (evs : list Event) (w : World) :
  schedule_ok w -> schedule_ok (run evs w).
Proof.
  revert w. induction evs as [|ev evs IH]; intros w H; [exact H|].
  apply IH, step_schedule_ok, H.
Qed.

Lemma initial_schedule_ok : schedule_ok initial.
Proof. split; [constructor | exact I]. Qed.

End ScheduleFacts.

Module PlaybackScheduler.
Import ScheduleFacts.
Local Open Scope Q_scope.

(** C1.  Gapless in-order scheduling.  When buffers are enqueued one after
    the other and, from the second call on, the device clock has not passed
    [nextStartTimeRef], the sources started are the buffers in call order,
    each starting where the previous one ends, and [nextStartTimeRef] ends
    at the end of the last one.  Scenario A: three messages carrying 1.0 s,
    0.5 s and 2.0 s of audio, all received at clock 0 by a fresh session,
    are started at 0, 1 and 1.5, and leave [nextStartTimeRef] at 3.5. *)
Theorem gapless_in_order :
  (forall (w : World) (b : AudioBuffer) (now : Q)
          (rest : list (AudioBuffer * Q)),
      back_to_back rest (enqueue b now w) ->
      let w' := enqueue_all ((b, now) :: rest) w in
      started w' = started w ++ started_since w w' /\
      map buffer (started_since w w') = b :: map fst rest /\
      gapless (started_since w w') /\
      forall d,
        nextStartTimeRef w'
        = when (last (started w') d)
          + duration (buffer (last (started w') d))) /\
  (Forall2 Qeq (map (fun s => duration (buffer s)) (started scenario_A))
               [1; 1 # 2; 2] /\
   Forall2 Qeq (map when (started scenario_A)) [0; 1; 3 # 2] /\
   gapless (started scenario_A) /\
   nextStartTimeRef scenario_A == 7 # 2).
Proof.
  split.
  - intros w b now rest H w'.
    destruct (enqueue_all_abuts rest _ H) as (new & Hs & Hb & Ha).
    assert (Hw' : started w' =
                  started w ++
                  {| node := length (started w); buffer := b;
                     when := Qmax (nextStartTimeRef w) now |} :: new).
    { unfold w'.
      change (enqueue_all ((b, now) :: rest) w)
        with (enqueue_all rest (enqueue b now w)).
      rewrite Hs, enqueue_started, <- app_assoc. reflexivity. }
    rewrite (started_since_app _ _ _ Hw'). repeat split.
    + exact Hw'.
    + cbn [map buffer]. now rewrite Hb.
    + apply abuts_gapless. exact Ha.
    + intros d. apply enqueue_all_end. discriminate.
  - vm_compute. repeat split; repeat constructor.
Qed.

Lemma gapless_in_order_witness :
  gapless
    (started_since initial
       (enqueue_all [(decoded_silence 24000, 0); (decoded_silence 12000, 0);
                     (decoded_silence 48000, 1 # 2)] initial)).
Proof.
  apply (proj1 gapless_in_order initial (decoded_silence 24000) 0
               [(decoded_silence 12000, 0); (decoded_silence 48000, 1 # 2)]).
  vm_compute. repeat split; discriminate.
Defined.

(** C2.  No overlap with real time.  A message whose audio decodes to [b],
    handled when the device clock reads [now], starts exactly one source,
    for [b], at [max(nextStartTimeRef, now)]: at [now] when the clock has
    passed [nextStartTimeRef], never before [now], and never before the end
    of a source started earlier in the run.  [nextStartTimeRef] becomes that
    start plus the buffer's duration. *)
Theorem start_is_max_of_next_and_now (evs : list Event)
    (m : LiveServerMessage) (now : Q) (text : string) (data : list byte)
    (b : AudioBuffer) (ctx : nat) :
  let w := run evs initial in
  audioData m = Found (Some text) ->
  decode text = Some data ->
  outputAudioCtxRef w = Some ctx ->
  decodeAudioData data = Ok b ->
  let w' := onmessage m now w in
  exists s,
    started w' = started w ++ [s] /\
    buffer s = b /\
    when s = Qmax (nextStartTimeRef w) now /\
    (nextStartTimeRef w < now -> when s == now) /\
    now <= when s /\
    nextStartTimeRef w <= when s /\
    Forall (fun p => when p + duration (buffer p) <= when s) (started w) /\
    nextStartTimeRef w' = when s + duration b.
Proof.
  intros w Ha Ht Hc Hd w'. unfold w'.
  rewrite (onmessage_enqueue m now w text data b ctx Ha Ht Hc Hd).
  rewrite transcribe_started, transcribe_nextStartTime, enqueue_started.
  eexists. split; [reflexivity|]. cbn [buffer when].
  pose proof (Q.le_max_l (nextStartTimeRef w) now) as Hl.
  repeat split; try assumption.
  - intros Hlt. apply Q.max_r. lra.
  - apply Q.le_max_r.
  - destruct (run_schedule_ok evs initial initial_schedule_ok) as [Hf _].
    fold w in Hf. eapply Forall_impl; [|exact Hf]. cbn beta.
    intros p Hp. lra.
Qed.

Lemma start_is_max_of_next_and_now_witness :
  exists s,
    started (onmessage (audio_message 4) 5 active_world)
    = started active_world ++ [s] /\
    when s == 5 /\ buffer s = decoded_silence 4.
Proof.
  destruct (start_is_max_of_next_and_now
              [Click true; OnOpen 0; OnMessage (audio_message 24000) 0]
              (audio_message 4) 5 (encode (repeat x00 8)) (repeat x00 8)
              (decoded_silence 4) 1%nat
              eq_refl ltac:(vm_compute; reflexivity)
              ltac:(vm_compute; reflexivity) eq_refl)
    as (s & Hs & Hb & Hw & Hgap & _).
  exists s. split; [exact Hs|]. split; [|exact Hb].
  apply Hgap. vm_compute. reflexivity.
Defined.

(** C10.  [nextStartTimeRef] never decreases.  No event moves it
    backwards; an enqueue sets it to [max(nextStartTimeRef, now)] plus the
    buffer's duration, which is not negative; and along every run from
    the initial state the start times of the sources are in non-decreasing
    order. *)
Theorem nextStartTime_never_decreases :
  (forall (w : World) (ev : Event),
      nextStartTimeRef w <= nextStartTimeRef (step w ev)) /\
  (forall (evs : list Event) (w : World),
      nextStartTimeRef w <= nextStartTimeRef (run evs w)) /\
  (forall (w : World) (b : AudioBuffer) (now : Q),
      nextStartTimeRef (enqueue b now w)
      = Qmax (nextStartTimeRef w) now + duration b /\
      0 <= duration b /\
      nextStartTimeRef w <= nextStartTimeRef (enqueue b now w)) /\
  (forall evs : list Event, nondecreasing (started (run evs initial))).
Proof.
  split; [|split; [|split]].
  - apply step_nextStartTime.
  - intros evs. induction evs as [|ev evs IH]; intros w; [apply Qle_refl|].
    eapply Qle_trans; [apply (step_nextStartTime w ev) | apply IH].
  - intros w b now. pose proof (duration_nonneg b).
    pose proof (Q.le_max_l (nextStartTimeRef w) now).
    rewrite enqueue_nextStartTime. repeat split; [assumption | lra].
  - intros evs. apply (run_schedule_ok evs initial initial_schedule_ok).
Qed.

End PlaybackScheduler.

(** ** Session lifecycle *)

Module LifecycleFacts.

Lemma nth_error_update_eq {A : Type} (l : list A) (i : nat) (v : A) :
  (i < length l)%nat -> nth_error (update i v l) i = Some v.
Proof.
  revert i. induction l as [|h t IH]; intros [|i] H; simpl in *;
    try lia; [reflexivity | apply IH; lia].
Qed.

Lemma nth_error_update_neq {A : Type} (l : list A) (i j : nat) (v : A) :
  i <> j -> nth_error (update i v l) j = nth_error l j.
Proof.
  revert i j. induction l as [|h t IH]; intros [|i] [|j] H; simpl;
    try reflexivity; [congruence | apply IH; congruence].
Qed.

Lemma update_length {A : Type} (l : list A) (i : nat) (v : A) :
  length (update i v l) = length l.
Proof.
  revert i. induction l as [|h t IH]; intros [|i]; simpl;
    try reflexivity. now rewrite IH.
Qed.

Lemma update_update {A : Type} (l : list A) (i : nat) (v : A) :
  update i v (update i v l) = update i v l.
Proof.
  revert i. induction l as [|h t IH]; intros [|i]; simpl;
    try reflexivity. now rewrite IH.
Qed.

End LifecycleFacts.

Module LiveSessionController.
Import LifecycleFacts.

(** C3, as the code has it.  [stopLive] closes the session held in
    [liveSessionRef], clears [isLiveActive] and disconnects the script
    processor of the capture path.  It does not touch playback: the set of
    sources, the sources already started and [nextStartTimeRef] are
    unchanged.  Other connections are left as they are, and the
    microphone stream is not stopped. *)
Theorem stopLive_effect (w : World) (k p : nat) :
  liveSessionRef w = Some k -> (k < length (connections w))%nat ->
  _scriptProcessor w = Some p -> (p < length (processors w))%nat ->
  let w' := stopLive w in
  connection k w' = Some Closed /\
  session_closed w' /\
  capture_connected w' = Some false /\
  isLiveActive w' = false /\
  sourcesRef w' = sourcesRef w /\
  started w' = started w /\
  nextStartTimeRef w' = nextStartTimeRef w /\
  mediaStreams w' = mediaStreams w /\
  (forall j, j <> k -> connection j w' = connection j w).
Proof.
  intros Hk Hlt Hp Hlp w'.
  assert (Hc : connection k w' = Some Closed).
  { unfold connection, w', stopLive. cbn [connections]. rewrite Hk.
    apply nth_error_update_eq, Hlt. }
  repeat split; try reflexivity.
  - exact Hc.
  - unfold session_closed. change (liveSessionRef w') with (liveSessionRef w).
    rewrite Hk. exact Hc.
  - unfold capture_connected, w', stopLive.
    cbn [_scriptProcessor processors]. rewrite Hp.
    apply nth_error_update_eq, Hlp.
  - intros j Hj. unfold connection, w', stopLive. cbn [connections].
    rewrite Hk. apply nth_error_update_neq. congruence.
Qed.

Lemma stopLive_effect_witness :
  connection 0 (stopLive active_world) = Some Closed /\
  sourcesRef (stopLive active_world) = sourcesRef active_world /\
  nextStartTimeRef (stopLive active_world) = nextStartTimeRef active_world.
Proof.
  destruct (stopLive_effect active_world 0 0
              ltac:(vm_compute; reflexivity) ltac:(vm_compute; lia)
              ltac:(vm_compute; reflexivity) ltac:(vm_compute; lia))
    as (Hc & _ & _ & _ & Hs & _ & Hn & _).
  split; [exact Hc|]. split; [exact Hs | exact Hn].
Defined.

(** C3 counterexample: a session with one second of audio scheduled at
    clock 0 is stopped half a second later; the source is still in the set
    and [nextStartTimeRef] still reads 1. *)
Lemma stopLive_keeps_playback :
  sourcesRef (stopLive active_world) = [0%nat] /\
  (nextStartTimeRef (stopLive active_world) == 1)%Q /\
  ~ playback_cancelled (1 # 2) (stopLive active_world).
Proof.
  split; [vm_compute; reflexivity|]. split; [vm_compute; reflexivity|].
  intros [H _]. vm_compute in H. discriminate H.
Qed.

(** C4, as the code has it.  [onerror] writes the error to the console and
    changes nothing else: however many error events arrive, the session
    stays as active as it was, and the connection, the capture path, the
    set of sources and [nextStartTimeRef] are as before.  [isLiveActive] is
    cleared by [onclose], the callback of the closed connection, which
    leaves playback and capture as they are too. *)
Theorem onerror_only_logs (es : list string) (w : World) (k : nat) :
  let w' := run (map OnError es) w in
  errors w' = errors w ++ es /\
  isLiveActive w' = isLiveActive w /\
  scheduler w' = scheduler w /\
  connections w' = connections w /\
  liveSessionRef w' = liveSessionRef w /\
  capture_connected w' = capture_connected w /\
  mediaStreams w' = mediaStreams w /\
  alerts w' = alerts w /\
  liveTranscription w' = liveTranscription w /\
  isLiveActive (onclose k w') = false /\
  scheduler (onclose k w') = scheduler w /\
  capture_connected (onclose k w') = capture_connected w /\
  mediaStreams (onclose k w') = mediaStreams w.
Proof.
  revert w. induction es as [|e es IH]; intros w; cbn zeta.
  - cbn [map run fold_left]. rewrite app_nil_r. repeat split.
  - change (run (map OnError (e :: es)) w)
      with (run (map OnError es) (onerror e w)).
    destruct (IH (onerror e w))
      as (He & Ha & Hs & Hc & Hl & Hp & Hm & Hal & Ht & Hca & Hcs & Hcp & Hcm).
    rewrite He, Ha, Hs, Hc, Hl, Hp, Hm, Hal, Ht, Hcs, Hcp, Hcm.
    cbn [errors onerror]. rewrite <- app_assoc.
    repeat split.
Qed.

(** C4 counterexample: an active session with audio scheduled receives
    the error event; it is still active, its connection open, its capture
    connected and its source in the set. *)
Lemma onerror_no_teardown :
  isLiveActive active_world = true /\
  isLiveActive (onerror "network" active_world) = true /\
  connection 0 (onerror "network" active_world) = Some Opened /\
  capture_connected (onerror "network" active_world) = Some true /\
  sourcesRef (onerror "network" active_world) = [0%nat] /\
  ~ torn_down (onerror "network" active_world).
Proof.
  do 5 (split; [vm_compute; reflexivity|]).
  intros [H _]. vm_compute in H. discriminate H.
Qed.

(** C5, as the code has it.  [startLive] has no guard on the session
    state: called with the microphone granted it always requests one more
    connection and replaces both audio contexts, leaving the transcript,
    the playback schedule and the existing connections as they are.
    [liveSessionRef] keeps the session it held until the new connection
    has opened, and holds the new one from then on.  The gate is the
    button: while [isLiveActive] holds a click runs [stopLive], so it
    opens no connection. *)
Theorem start_gated_by_button (w : World) (granted : bool) :
  isLiveActive w = true ->
  onClick granted w = stopLive w /\
  length (connections (onClick granted w)) = length (connections w) /\
  connections (startLive true w) = connections w ++ [Connecting] /\
  liveSessionRef (startLive true w) = liveSessionRef w /\
  liveSessionRef (onopen (length (connections w)) (startLive true w))
  = Some (length (connections w)) /\
  connection (length (connections w))
             (onopen (length (connections w)) (startLive true w))
  = Some Opened /\
  outputAudioCtxRef (startLive true w) = Some (S (audioContexts w)) /\
  isLiveActive (startLive true w) = true /\
  liveTranscription (startLive true w) = liveTranscription w /\
  scheduler (startLive true w) = scheduler w /\
  capture_connected (startLive true w) = capture_connected w.
Proof.
  intros Ha. unfold onClick. rewrite Ha. repeat split.
  - unfold stopLive. cbn [connections].
    destruct (liveSessionRef w); [apply update_length | reflexivity].
  - unfold connection. cbn [onopen startLive connections].
    apply nth_error_update_eq. rewrite length_app. cbn [length]. lia.
  - exact Ha.
Qed.

Lemma start_gated_by_button_witness :
  onClick true active_world = stopLive active_world /\
  connections (startLive true active_world) = [Opened; Connecting].
Proof.
  destruct (start_gated_by_button active_world true
              ltac:(vm_compute; reflexivity))
    as (Hc & _ & Hs & _).
  split; [exact Hc|]. rewrite Hs. vm_compute. reflexivity.
Defined.

(** C5 counterexample: [startLive] on an active session opens a second
    connection and takes over [liveSessionRef] and the output context. *)
Lemma startLive_while_active :
  isLiveActive active_world = true /\
  connections active_world = [Opened] /\
  connections (startLive true active_world) = [Opened; Connecting] /\
  ~ start_rejected active_world (startLive true active_world).
Proof.
  do 3 (split; [vm_compute; reflexivity|]).
  intros [H _]. vm_compute in H. discriminate H.
Qed.

(** C9.  The teardown is idempotent.  [stopLive] always returns; running it
    a second time changes nothing, and with an empty set of sources it
    leaves the set empty and [nextStartTimeRef] as it was. *)
Theorem stopLive_idempotent (w : World) :
  stopLive (stopLive w) = stopLive w /\
  scheduler (stopLive (stopLive w)) = scheduler (stopLive w) /\
  (sourcesRef w = [] ->
   sourcesRef (stopLive w) = [] /\
   scheduler (stopLive w) = scheduler w).
Proof.
  assert (H : stopLive (stopLive w) = stopLive w).
  { unfold stopLive. cbn. f_equal.
    - destruct (liveSessionRef w); [apply update_update | reflexivity].
    - destruct (_scriptProcessor w); [apply update_update | reflexivity]. }
  split; [exact H|]. split; [now rewrite H|].
  intros He. split; [exact He | reflexivity].
Qed.

Lemma stopLive_idempotent_witness :
  sourcesRef (stopLive initial) = [] /\
  scheduler (stopLive initial) = scheduler initial /\
  stopLive (stopLive active_world) = stopLive active_world.
Proof.
  destruct (stopLive_idempotent initial) as (_ & _ & He).
  destruct (He eq_refl) as [Hs Hsch].
  split; [exact Hs|]. split; [exact Hsch|].
  exact (proj1 (stopLive_idempotent active_world)).
Defined.

End LiveSessionController.

(** ** More on the sample codec *)

Module PcmFacts.
Import TypedArray TypedArrayFacts CodecFacts.

Lemma byte_of_Z_of_byte (z : Z) (b : byte) :
  z mod 256 = Z_of_byte b -> byte_of_Z z = b.
Proof.
  intros H. unfold byte_of_Z. rewrite H. unfold Z_of_byte.
  rewrite N2Z.id, Byte.of_to_N. reflexivity.
Qed.

Lemma bytes_of_int16_of_bytes (lo hi : byte) :
  bytes_of_int16 (int16_of_bytes lo hi) = [lo; hi].
Proof.
  pose proof (Z_of_byte_range lo) as Hlo.
  pose proof (Z_of_byte_range hi) as Hhi.
  set (v := int16_of_bytes lo hi).
  assert (Hv : v mod 65536 = Z_of_byte lo + 256 * Z_of_byte hi).
  { unfold v, int16_of_bytes. rewrite ToInt16_congruent.
    apply Z.mod_small. lia. }
  change 65536 with (256 * 256) in Hv. rewrite Z.rem_mul_r in Hv by lia.
  pose proof (Z.mod_pos_bound v 256 eq_refl).
  pose proof (Z.mod_pos_bound (v / 256) 256 eq_refl).
  unfold bytes_of_int16.
  rewrite (byte_of_Z_of_byte v lo) by lia.
  rewrite (byte_of_Z_of_byte (v / 256) hi) by lia.
  reflexivity.
Qed.

Lemma Uint8Array_of_int16_elements (data : list byte) :
  Nat.even (length data) = true ->
  Uint8Array_of_Int16Array (int16_elements data) = data.
Proof.
  induction data as [| |lo hi rest IH] using list_pair_ind; intros He.
  - reflexivity.
  - discriminate He.
  - cbn [int16_elements Uint8Array_of_Int16Array flat_map].
    rewrite bytes_of_int16_of_bytes. cbn [app]. f_equal. f_equal.
    apply IH. exact He.
Qed.

Lemma setInt16_of_decoded (v : Z) :
  -32768 <= v <= 32767 -> setInt16 ((v # 32768) * 32768) = v.
Proof.
  intros H. unfold setInt16, truncate, Qmult. cbn [Qnum Qden].
  rewrite Pos.mul_1_r. change (Z.pos 32768) with 32768.
  rewrite Z.quot_mul by lia. apply ToInt16_in_range, H.
Qed.

Lemma int16_of_input_of_decoded (a : list Z) :
  Forall (fun v => -32768 <= v <= 32767) a ->
  int16_of_input (map (fun v => v # 32768) a) = a.
Proof.
  induction 1 as [|v a Hv _ IH]; [reflexivity|].
  cbn [map int16_of_input]. rewrite setInt16_of_decoded by exact Hv.
  f_equal. exact IH.
Qed.

Lemma decodeAudioData_inv (data : list byte) (b : AudioBuffer) :
  decodeAudioData data = Ok b ->
  Nat.even (length data) = true /\ data <> [] /\
  b = {| channelData := map (fun v => v # 32768) (int16_elements data);
         sampleRate := 24000 |}.
Proof.
  intros H. destruct (Nat.even (length data)) eqn:He.
  - destruct data as [|b0 data'].
    + discriminate H.
    + rewrite decodeAudioData_even in H by (assumption || discriminate).
      injection H as <-. repeat split. discriminate.
  - rewrite decodeAudioData_odd in H by assumption. discriminate H.
Qed.

Lemma truncate_opp (x : Q) : truncate (- x) = - truncate x.
Proof.
  destruct x as [n d]. unfold truncate, Qopp. cbn [Qnum Qden].
  apply Z.quot_opp_l. lia.
Qed.

Lemma quot_cross_monotone (a b c d : Z) :
  0 < b -> 0 < d -> a * d <= c * b -> a ÷ b <= c ÷ d.
Proof.
  intros Hb Hd H.
  pose proof (Z.quot_rem' a b) as Ea. pose proof (Z.quot_rem' c d) as Ec.
  pose proof (Z.rem_bound_abs a b ltac:(lia)) as Ba.
  pose proof (Z.rem_bound_abs c d ltac:(lia)) as Bc.
  set (q1 := a ÷ b) in *. set (q2 := c ÷ d) in *.
  set (r1 := Z.rem a b) in *. set (r2 := Z.rem c d) in *.
  assert (Sa : (0 <= a -> 0 <= r1) /\ (a <= 0 -> r1 <= 0)).
  { split; intros; [apply Z.rem_nonneg | apply Z.rem_nonpos]; lia. }
  assert (Sc : (0 <= c -> 0 <= r2) /\ (c <= 0 -> r2 <= 0)).
  { split; intros; [apply Z.rem_nonneg | apply Z.rem_nonpos]; lia. }
  destruct (Z.le_gt_cases q1 q2) as [|Hgt]; [assumption|exfalso].
  assert (H1 : b * d * (q2 + 1) <= b * d * q1) by nia.
  assert (H2 : a * d = b * d * q1 + r1 * d) by nia.
  assert (H3 : c * b = b * d * q2 + r2 * b) by nia.
  destruct (Z.le_gt_cases 0 a) as [Ha|Ha].
  - assert (0 <= r1 * d) by nia.
    assert (r2 * b < b * d) by nia. lia.
  - assert (Hq1 : q1 <= 0) by nia.
    assert (Hc : c < 0) by nia.
    assert (r2 * b <= 0) by nia.
    assert (- (b * d) < r1 * d) by nia. lia.
Qed.

Lemma truncate_monotone (x y : Q) :
  (x <= y)%Q -> truncate x <= truncate y.
Proof.
  destruct x as [a b], y as [c d]. unfold truncate, Qle. cbn [Qnum Qden].
  apply quot_cross_monotone; lia.
Qed.

End PcmFacts.

Module PcmCodec.
Import TypedArray TypedArrayFacts CodecFacts PcmFacts.

(** X1.  Encoding what [decodeAudioData] returned gives back the very bytes
    that were decoded. *)
Theorem encode_decoded_bytes (data : list byte) (b : AudioBuffer) :
  decodeAudioData data = Ok b ->
  pcm_of_input (channelData b) = data.
Proof.
  intros H. destruct (decodeAudioData_inv data b H) as (He & _ & ->).
  cbn [channelData]. unfold pcm_of_input.
  rewrite int16_of_input_of_decoded by apply int16_elements_range.
  apply Uint8Array_of_int16_elements, He.
Qed.

Lemma encode_decoded_bytes_witness :
  pcm_of_input
    [(-32768 # 32768)%Q; (32767 # 32768)%Q; (-1 # 32768)%Q]
  = [x00; x80; xff; x7f; xff; xff].
Proof.
  exact (encode_decoded_bytes [x00; x80; xff; x7f; xff; xff]
           {| channelData :=
                [(-32768 # 32768)%Q; (32767 # 32768)%Q; (-1 # 32768)%Q];
              sampleRate := 24000 |} eq_refl).
Defined.

(** X2.  Quantisation is stable: whatever the input samples, in range or not,
    the samples that come back from one encode and decode encode again to
    the same bytes, one sample for each input sample. *)
Theorem requantisation_stable (inputData : list Q) :
  inputData <> [] ->
  exists b,
    decodeAudioData (pcm_of_input inputData) = Ok b /\
    length (channelData b) = length inputData /\
    Forall (fun y => (-1 <= y /\ y < 1)%Q) (channelData b) /\
    pcm_of_input (channelData b) = pcm_of_input inputData.
Proof.
  intros Hne. rewrite decode_pcm_of_input by assumption.
  eexists. split; [reflexivity|]. cbn [channelData]. repeat split.
  - unfold int16_of_input. now rewrite !length_map.
  - apply Forall_map. unfold int16_of_input. apply Forall_map.
    apply Forall_forall. intros x _.
    apply decoded_sample_range, ToInt16_range.
  - unfold pcm_of_input. f_equal. apply int16_of_input_of_decoded.
    unfold int16_of_input. apply Forall_map, Forall_forall.
    intros x _. apply ToInt16_range.
Qed.

Lemma requantisation_stable_witness :
  exists b,
    decodeAudioData (pcm_of_input [3 # 2; -7; 1 # 3]%Q) = Ok b /\
    pcm_of_input (channelData b) = pcm_of_input [3 # 2; -7; 1 # 3]%Q.
Proof.
  destruct (requantisation_stable [3 # 2; -7; 1 # 3]%Q ltac:(discriminate))
    as (b & Hd & _ & _ & He).
  exists b. split; assumption.
Defined.

(** X3.  A decoded chunk plays for one second per 48000 bytes: two bytes per
    frame at 24000 frames per second. *)
Theorem decoded_duration (data : list byte) (b : AudioBuffer) :
  decodeAudioData data = Ok b ->
  (duration b == Z.of_nat (length data) # 48000)%Q /\
  (0 < duration b)%Q /\
  (2 * length (channelData b))%nat = length data.
Proof.
  intros H. destruct (decodeAudioData_inv data b H) as (He & Hne & ->).
  assert (Hl : (2 * length (int16_elements data))%nat = length data).
  { rewrite int16_elements_length.
    apply Nat.even_spec in He. destruct He as [m ->].
    rewrite Nat.div2_double. reflexivity. }
  unfold duration, Qeq, Qlt. cbn [channelData sampleRate Qnum Qden].
  rewrite length_map.
  assert (0 < length data)%nat by (destruct data; [congruence | simpl; lia]).
  repeat split; lia.
Qed.

Lemma decoded_duration_witness :
  (duration (decoded_silence 4) == 8 # 48000)%Q.
Proof.
  exact (proj1 (decoded_duration (repeat x00 8) (decoded_silence 4)
                  eq_refl)).
Defined.

(** X4.  On samples in (-1, 1) the quantiser is monotone and odd: a larger
    sample never gets a smaller 16-bit value, and negating a sample negates
    its value (truncation is towards zero on both sides). *)
Theorem quantiser_monotone_and_odd (x y : Q) :
  (-1 < x)%Q -> (x <= y)%Q -> (y < 1)%Q ->
  setInt16 (x * 32768) <= setInt16 (y * 32768) /\
  setInt16 (- x * 32768) = - setInt16 (x * 32768).
Proof.
  intros Hx Hxy Hy.
  assert (Rx : -32768 <= truncate (x * 32768) <= 32767)
    by (apply truncate_scaled_range; lra).
  assert (Ry : -32768 <= truncate (y * 32768) <= 32767)
    by (apply truncate_scaled_range; lra).
  assert (Rn : -32768 <= truncate (- x * 32768) <= 32767)
    by (apply truncate_scaled_range; lra).
  assert (Hn : truncate (- x * 32768) = - truncate (x * 32768)).
  { rewrite <- truncate_opp. destruct x as [n d].
    unfold truncate, Qopp, Qmult. cbn [Qnum Qden]. f_equal. lia. }
  rewrite !setInt16_in_range by assumption. split.
  - apply truncate_monotone. lra.
  - exact Hn.
Qed.

Lemma quantiser_monotone_and_odd_witness :
  setInt16 ((-1 # 3) * 32768) <= setInt16 ((1 # 2) * 32768) /\
  setInt16 (- (-1 # 3) * 32768) = - setInt16 ((-1 # 3) * 32768).
Proof.
  apply (quantiser_monotone_and_odd (-1 # 3) (1 # 2));
    unfold Qlt, Qle; simpl; lia.
Defined.

End PcmCodec.

(** ** More on the session *)

Module SessionFacts.
Import LifecycleFacts ScheduleFacts.

Lemma transcribe_liveTranscription (m : LiveServerMessage) (w : World) :
  liveTranscription (transcribe m w) = liveTranscription w ++ transcriptions m.
Proof.
  unfold transcribe, pushTranscription, transcriptions.
  destruct (outputTranscription m), (inputTranscription m);
    cbn [liveTranscription]; rewrite ?app_nil_r, <- ?app_assoc; reflexivity.
Qed.

Lemma transcribe_sourcesRef (m : LiveServerMessage) (w : World) :
  sourcesRef (transcribe m w) = sourcesRef w.
Proof.
  unfold transcribe, pushTranscription.
  destruct (outputTranscription m), (inputTranscription m); reflexivity.
Qed.

Lemma transcribe_refs (m : LiveServerMessage) (w : World) :
  liveSessionRef (transcribe m w) = liveSessionRef w /\
  connections (transcribe m w) = connections w /\
  _scriptProcessor (transcribe m w) = _scriptProcessor w /\
  processors (transcribe m w) = processors w /\
  sent (transcribe m w) = sent w.
Proof.
  unfold transcribe, pushTranscription.
  destruct (outputTranscription m), (inputTranscription m);
    repeat split; reflexivity.
Qed.

Lemma existsb_eqb_In (n : nat) (s : list nat) :
  existsb (Nat.eqb n) s = true <-> In n s.
Proof.
  rewrite existsb_exists. split.
  - intros (m & Hm & E). apply Nat.eqb_eq in E. now subst.
  - intros H. exists n. split; [exact H | apply Nat.eqb_refl].
Qed.

Lemma set_add_fresh (n : nat) (s : list nat) :
  ~ In n s -> set_add n s = s ++ [n].
Proof.
  intros H. unfold set_add.
  destruct (existsb (Nat.eqb n) s) eqn:E; [|reflexivity].
  apply existsb_eqb_In in E. contradiction.
Qed.

Lemma set_delete_In (n m : nat) (s : list nat) :
  In m (set_delete n s) <-> In m s /\ m <> n.
Proof.
  unfold set_delete. rewrite filter_In, negb_true_iff, Nat.eqb_neq.
  intuition congruence.
Qed.

Lemma sources_ok_startSource (b : AudioBuffer) (w : World) :
  sources_ok w -> sources_ok (startSource b w).
Proof.
  intros (Hn & Hf & Hs). unfold sources_ok.
  cbn [startSource sourcesRef started].
  assert (Hfresh : ~ In (length (started w)) (sourcesRef w)).
  { intros Hin. rewrite Forall_forall in Hf. specialize (Hf _ Hin). lia. }
  rewrite set_add_fresh by exact Hfresh.
  rewrite length_app. cbn [length]. repeat split.
  - apply NoDup_app; [exact Hn | repeat constructor; intros [] | ].
    intros x Hx [<-|[]]. contradiction.
  - apply Forall_app. split.
    + eapply Forall_impl; [|exact Hf]. cbn beta. intros; lia.
    + repeat constructor. lia.
  - rewrite map_app, Hs. cbn [map node].
    replace (length (started w) + 1)%nat with (S (length (started w)))
      by lia.
    rewrite seq_S. reflexivity.
Qed.

Lemma sources_ok_same (w w' : World) :
  sourcesRef w' = sourcesRef w -> started w' = started w ->
  sources_ok w -> sources_ok w'.
Proof. unfold sources_ok. intros -> ->. exact (fun H => H). Qed.

Lemma sources_ok_onended (n : nat) (w : World) :
  sources_ok w -> sources_ok (onended n w).
Proof.
  intros (Hn & Hf & Hs). unfold sources_ok.
  cbn [onended sourcesRef started]. repeat split.
  - apply NoDup_filter, Hn.
  - apply Forall_forall. intros m Hm. apply set_delete_In in Hm.
    rewrite Forall_forall in Hf. apply Hf, Hm.
  - exact Hs.
Qed.

Lemma step_sources_ok (w : World) (ev : Event) :
  sources_ok w -> sources_ok (step w ev).
Proof.
  intros H.
  destruct ev as [g|g| |k|k i|m now|n|k|e]; cbn [step];
    try (apply (sources_ok_same w); [reflexivity | reflexivity | exact H]).
  - unfold onClick. destruct (isLiveActive w); [|destruct g];
      (apply (sources_ok_same w); [reflexivity | reflexivity | exact H]).
  - destruct g;
      (apply (sources_ok_same w); [reflexivity | reflexivity | exact H]).
  - destruct (onmessage_cases m now w)
      as [(text & data & b & _ & _ & _ & ->)|[->|[->| ->]]].
    + apply (sources_ok_same (enqueue b now w));
        [apply transcribe_sourcesRef | apply transcribe_started |].
      apply sources_ok_startSource.
      apply (sources_ok_same w); [reflexivity | reflexivity | exact H].
    + apply (sources_ok_same w); [reflexivity | reflexivity | exact H].
    + apply (sources_ok_same w);
        [apply transcribe_sourcesRef | apply transcribe_started | exact H].
    + exact H.
  - apply sources_ok_onended, H.
Qed.

Lemma run_sources_ok (evs : list Event) (w : World) :
  sources_ok w -> sources_ok (run evs w).
Proof.
  revert w. induction evs as [|ev evs IH]; intros w H; [exact H|].
  apply IH, step_sources_ok, H.
Qed.

Lemma initial_sources_ok : sources_ok initial.
Proof. repeat split; constructor. Qed.

Lemma run_onended (l : list nat) (w : World) :
  sourcesRef (run (map OnEnded l) w)
  = filter (fun m => negb (existsb (Nat.eqb m) l)) (sourcesRef w) /\
  started (run (map OnEnded l) w) = started w /\
  nextStartTimeRef (run (map OnEnded l) w) = nextStartTimeRef w.
Proof.
  revert w. induction l as [|n l IH]; intros w.
  - cbn [map run fold_left existsb negb]. repeat split.
    induction (sourcesRef w) as [|a s IHs]; [reflexivity|].
    cbn [filter]. now rewrite <- IHs.
  - change (run (map OnEnded (n :: l)) w)
      with (run (map OnEnded l) (onended n w)).
    destruct (IH (onended n w)) as (Hs & Hst & Hn).
    rewrite Hs, Hst, Hn. repeat split.
    cbn [onended sourcesRef]. unfold set_delete.
    induction (sourcesRef w) as [|a s IHs]; [reflexivity|].
    cbn [filter existsb].
    rewrite (Nat.eqb_sym a n).
    destruct (Nat.eqb n a); cbn [negb orb filter]; rewrite IHs; reflexivity.
Qed.

End SessionFacts.

Module SessionInvariants.
Import LifecycleFacts ScheduleFacts SessionFacts.

Lemma refs_ok_same (w w' : World) :
  liveSessionRef w' = liveSessionRef w ->
  _scriptProcessor w' = _scriptProcessor w ->
  length (processors w') = length (processors w) ->
  refs_ok w -> refs_ok w'.
Proof.
  unfold refs_ok. intros -> -> Hp H.
  destruct (_scriptProcessor w); destruct H as [H1 H2].
  - split; [congruence | exact H2].
  - split; [|exact H2].
    apply length_zero_iff_nil. rewrite Hp, H1. reflexivity.
Qed.

Lemma step_liveSessionRef (w : World) (ev : Event) :
  liveSessionRef (step w ev)
  = match ev with OnOpen k => Some k | _ => liveSessionRef w end.
Proof.
  destruct ev as [g|g| |k|k i|m now|n|k|e]; cbn [step]; try reflexivity.
  - unfold onClick. destruct (isLiveActive w); [|destruct g]; reflexivity.
  - destruct g; reflexivity.
  - destruct (onmessage_cases m now w)
      as [(text & data & b & _ & _ & _ & ->)|[->|[->| ->]]];
      try reflexivity.
    + apply (transcribe_refs m (enqueue b now w)).
    + apply (transcribe_refs m w).
Qed.

Lemma run_liveSessionRef (evs : list Event) (w : World) :
  liveSessionRef (run evs w)
  = fold_left (fun acc ev => match ev with OnOpen k => Some k | _ => acc end)
              evs (liveSessionRef w).
Proof.
  revert w. induction evs as [|ev evs IH]; intros w; [reflexivity|].
  change (run (ev :: evs) w) with (run evs (step w ev)).
  rewrite IH, step_liveSessionRef. reflexivity.
Qed.

Lemma stopLive_processors (w : World) :
  length (processors (stopLive w)) = length (processors w).
Proof.
  cbn [stopLive processors].
  destruct (_scriptProcessor w); [apply update_length | reflexivity].
Qed.

Lemma step_refs_ok (w : World) (ev : Event) :
  refs_ok w -> refs_ok (step w ev).
Proof.
  intros H.
  destruct ev as [g|g| |k|k i|m now|n|k|e]; cbn [step];
    try (apply (refs_ok_same w); try reflexivity; exact H).
  - unfold onClick. destruct (isLiveActive w); [|destruct g].
    + apply (refs_ok_same w);
        [reflexivity | reflexivity | apply stopLive_processors | exact H].
    + apply (refs_ok_same w); try reflexivity; exact H.
    + apply (refs_ok_same w); try reflexivity; exact H.
  - destruct g; (apply (refs_ok_same w); try reflexivity; exact H).
  - apply (refs_ok_same w);
      [reflexivity | reflexivity | apply stopLive_processors | exact H].
  - unfold refs_ok. cbn [onopen _scriptProcessor processors liveSessionRef].
    rewrite length_app. cbn [length]. split; [lia | discriminate].
  - destruct (onmessage_cases m now w)
      as [(text & data & b & _ & _ & _ & ->)|[->|[->| ->]]].
    + destruct (transcribe_refs m (enqueue b now w)) as (E1 & _ & E3 & E4 & _).
      apply (refs_ok_same w); rewrite ?E1, ?E3, ?E4;
        try reflexivity; exact H.
    + apply (refs_ok_same w); try reflexivity. exact H.
    + destruct (transcribe_refs m w) as (E1 & _ & E3 & E4 & _).
      apply (refs_ok_same w); rewrite ?E1, ?E3, ?E4;
        try reflexivity; exact H.
    + exact H.
Qed.

Lemma run_refs_ok (evs : list Event) (w : World) :
  refs_ok w -> refs_ok (run evs w).
Proof.
  revert w. induction evs as [|ev evs IH]; intros w H; [exact H|].
  apply IH, step_refs_ok, H.
Qed.

Lemma initial_refs_ok : refs_ok initial.
Proof. split; reflexivity. Qed.

Lemma filter_none {A : Type} (f : A -> bool) (l : list A) :
  Forall (fun x => f x = false) l -> filter f l = [].
Proof.
  induction 1 as [|x l Hx _ IH]; [reflexivity|].
  cbn [filter]. now rewrite Hx.
Qed.

Lemma step_liveTranscription (w : World) (ev : Event) :
  exists new, liveTranscription (step w ev) = liveTranscription w ++ new.
Proof.
  destruct ev as [g|g| |k|k i|m now|n|k|e]; cbn [step];
    try (exists []; rewrite app_nil_r; reflexivity).
  - exists []. rewrite app_nil_r. unfold onClick.
    destruct (isLiveActive w); [|destruct g]; reflexivity.
  - exists []. rewrite app_nil_r. destruct g; reflexivity.
  - destruct (onmessage_cases m now w)
      as [(text & data & b & _ & _ & _ & ->)|[->|[->| ->]]].
    + exists (transcriptions m). rewrite transcribe_liveTranscription.
      reflexivity.
    + exists []. rewrite app_nil_r. reflexivity.
    + exists (transcriptions m). apply transcribe_liveTranscription.
    + exists []. rewrite app_nil_r. reflexivity.
Qed.

(** X5.  Along every run from the initial state the set of sources has no
    duplicates, each of its members is a source that was started (the
    [n]-th started source is node [n]), and so it never holds more nodes
    than were started. *)
Theorem active_set_well_formed (evs : list Event) :
  let w := run evs initial in
  NoDup (sourcesRef w) /\
  (forall n, In n (sourcesRef w) ->
             exists s, nth_error (started w) n = Some s /\ node s = n) /\
  (length (sourcesRef w) <= length (started w))%nat.
Proof.
  intros w.
  destruct (run_sources_ok evs initial initial_sources_ok)
    as (Hn & Hf & Hs). fold w in Hn, Hf, Hs.
  rewrite Forall_forall in Hf. repeat split.
  - exact Hn.
  - intros n Hin. specialize (Hf n Hin).
    destruct (nth_error (started w) n) as [s|] eqn:E.
    + exists s. split; [reflexivity|].
      assert (Hm : nth_error (map node (started w)) n = Some (node s))
        by (rewrite nth_error_map, E; reflexivity).
      rewrite Hs, nth_error_seq in Hm.
      apply Nat.ltb_lt in Hf. rewrite Hf in Hm. cbn in Hm. congruence.
    + apply nth_error_None in E. lia.
  - rewrite <- (length_seq (length (started w)) 0).
    apply NoDup_incl_length; [exact Hn|].
    intros n Hin. apply in_seq. specialize (Hf n Hin). lia.
Qed.

(** X6.  Natural completion empties the set: once [onended] has run for every
    source started so far, in whatever world the run has reached, the set
    of sources is empty; the schedule and [nextStartTimeRef] are left as
    they were. *)
Theorem all_ended_empties_set (evs : list Event) :
  let w := run evs initial in
  let w' := run (map OnEnded (map node (started w))) w in
  sourcesRef w' = [] /\
  started w' = started w /\
  nextStartTimeRef w' = nextStartTimeRef w.
Proof.
  intros w w'.
  destruct (run_sources_ok evs initial initial_sources_ok)
    as (_ & Hf & Hs). fold w in Hf, Hs.
  destruct (run_onended (map node (started w)) w) as (E1 & E2 & E3).
  fold w' in E1, E2, E3. repeat split; try assumption.
  rewrite E1. apply filter_none.
  eapply Forall_impl; [|exact Hf]. cbn beta. intros n Hlt.
  apply negb_false_iff, existsb_eqb_In. rewrite Hs. apply in_seq. lia.
Qed.

(** X7.  The transcript only grows: whatever events occur, the transcript
    before them is a prefix of the transcript after them. *)
Theorem transcript_append_only (evs : list Event) (w : World) :
  exists new, liveTranscription (run evs w) = liveTranscription w ++ new.
Proof.
  revert w. induction evs as [|ev evs IH]; intros w.
  - exists []. rewrite app_nil_r. reflexivity.
  - destruct (step_liveTranscription w ev) as (n1 & H1).
    destruct (IH (step w ev)) as (n2 & H2).
    exists (n1 ++ n2).
    change (run (ev :: evs) w) with (run evs (step w ev)).
    rewrite H2, H1, app_assoc. reflexivity.
Qed.

(** X8.  [onmessage] appends the transcriptions of a message, the model's
    before the user's, exactly when the handler runs to its end: when
    there is no audio to play (none or empty in the message, or no output
    context) or the audio is base64 text of an even, non-zero number of
    bytes.  In every other case (a model turn without parts, text that is
    not base64, zero or an odd number of bytes) it appends nothing and
    starts nothing. *)
Theorem onmessage_transcript (m : LiveServerMessage) (now : Q) (w : World) :
  (handler_completes m w ->
   liveTranscription (onmessage m now w)
   = liveTranscription w ++ transcriptions m) /\
  (~ handler_completes m w ->
   liveTranscription (onmessage m now w) = liveTranscription w /\
   started (onmessage m now w) = started w).
Proof.
  split.
  - intros [Ha|[Ha|[[[audio Ha] Hc]|(text & data & Ha & Ht & Hne & He)]]];
      unfold onmessage; rewrite Ha.
    + apply transcribe_liveTranscription.
    + apply transcribe_liveTranscription.
    + rewrite Hc. destruct audio as [[|c t]|];
        apply transcribe_liveTranscription.
    + destruct text as [|c t].
      * cbv in Ht. congruence.
      * destruct (outputAudioCtxRef w);
          [|apply transcribe_liveTranscription].
        rewrite Ht, (CodecFacts.decodeAudioData_even data He Hne).
        rewrite transcribe_liveTranscription. reflexivity.
  - intros Hn. unfold onmessage.
    destruct (audioData m) as [[[|c t]|]|] eqn:Ha.
    + exfalso. apply Hn. right. left. exact Ha.
    + destruct (outputAudioCtxRef w) as [ctx|] eqn:Hc.
      * destruct (decode (String c t)) as [data|] eqn:Ht;
          [|split; reflexivity].
        destruct (decodeAudioData data) as [b|e] eqn:Hd;
          [|split; reflexivity].
        exfalso. apply Hn. right. right. right.
        destruct (PcmFacts.decodeAudioData_inv data b Hd) as (He & Hne & _).
        exists (String c t), data. auto.
      * exfalso. apply Hn. right. right. left. split; eauto.
    + exfalso. apply Hn. left. exact Ha.
    + split; reflexivity.
Qed.

Lemma onmessage_transcript_witness :
  liveTranscription
    (onmessage {| modelTurn := modelTurn (audio_of_bytes [x01; x02]);
                  outputTranscription := Some "hello"%string;
                  inputTranscription := Some "hi"%string |} 0
               (run [Click true; OnOpen 0] initial))
  = [("gemini", "hello"); ("user", "hi")]%string.
Proof.
  apply (proj1 (onmessage_transcript
                  {| modelTurn := modelTurn (audio_of_bytes [x01; x02]);
                     outputTranscription := Some "hello"%string;
                     inputTranscription := Some "hi"%string |} 0
                  (run [Click true; OnOpen 0] initial))).
  right. right. right. exists (encode [x01; x02]), [x01; x02].
  repeat split; try reflexivity. discriminate.
Defined.

(** X9.  A message whose audio has an odd number of bytes is lost as a
    whole: with an output context in place the handler throws while
    decoding, so nothing is scheduled and the transcriptions carried by
    the same message are not added; only line 79 has taken effect. *)
Theorem odd_audio_drops_message (m : LiveServerMessage) (now : Q)
    (w : World) (text : string) (data : list byte) (ctx : nat) :
  audioData m = Found (Some text) ->
  decode text = Some data ->
  Nat.even (length data) = false ->
  outputAudioCtxRef w = Some ctx ->
  onmessage m now w = syncNextStartTime now w /\
  liveTranscription (onmessage m now w) = liveTranscription w /\
  started (onmessage m now w) = started w /\
  sourcesRef (onmessage m now w) = sourcesRef w /\
  nextStartTimeRef (onmessage m now w) = Qmax (nextStartTimeRef w) now.
Proof.
  intros Ha Ht Ho Hc.
  assert (E : onmessage m now w = syncNextStartTime now w).
  { unfold onmessage. rewrite Ha, Hc.
    destruct text as [|c t].
    - cbv in Ht. injection Ht as <-. discriminate Ho.
    - rewrite Ht, (CodecFacts.decodeAudioData_odd data Ho). reflexivity. }
  rewrite E. repeat split.
Qed.

Lemma odd_audio_drops_message_witness :
  liveTranscription
    (onmessage {| modelTurn := modelTurn (audio_of_bytes [x01; x02; x03]);
                  outputTranscription := Some "hello"%string;
                  inputTranscription := None |} 0
               (run [Click true; OnOpen 0] initial))
  = liveTranscription (run [Click true; OnOpen 0] initial).
Proof.
  exact (proj1 (proj2 (odd_audio_drops_message
           {| modelTurn := modelTurn (audio_of_bytes [x01; x02; x03]);
              outputTranscription := Some "hello"%string;
              inputTranscription := None |} 0
           (run [Click true; OnOpen 0] initial)
           (encode [x01; x02; x03]) [x01; x02; x03] 1%nat
           eq_refl eq_refl eq_refl eq_refl))).
Defined.

(** X10.  Capture frames are sent in capture order, one chunk of two bytes per
    sample for each frame, to the session of the processor; nothing is
    batched or held back, whatever state the connection is in. *)
Theorem frames_sent_in_order (k : nat) (frames : list (list Q)) (w : World) :
  let w' := run (map (OnAudioProcess k) frames) w in
  sent w' = sent w ++ map (fun f => (k, pcm_of_input f)) frames /\
  Forall2 (fun f c => fst c = k /\ length (snd c) = (2 * length f)%nat)
          frames (skipn (length (sent w)) (sent w')) /\
  connections w' = connections w.
Proof.
  revert w. induction frames as [|f frames IH]; intros w w'.
  - unfold w'. cbn [map run fold_left]. rewrite app_nil_r, skipn_all.
    repeat split. constructor.
  - unfold w'.
    change (run (map (OnAudioProcess k) (f :: frames)) w)
      with (run (map (OnAudioProcess k) frames) (onaudioprocess k f w)).
    destruct (IH (onaudioprocess k f w)) as (Hs & _ & Hc).
    cbn zeta in Hs, Hc.
    assert (E : sent (run (map (OnAudioProcess k) frames)
                          (onaudioprocess k f w))
                = sent w ++ map (fun f => (k, pcm_of_input f)) (f :: frames)).
    { rewrite Hs. cbn [onaudioprocess sent map].
      rewrite <- app_assoc. reflexivity. }
    rewrite E, Hc. repeat split.
    rewrite skipn_app, skipn_all, Nat.sub_diag. cbn [app skipn].
    clear. induction (f :: frames) as [|g l IHl]; constructor; [|exact IHl].
    split; [reflexivity|]. cbn [snd]. unfold pcm_of_input.
    rewrite TypedArrayFacts.Uint8Array_length. unfold int16_of_input.
    now rewrite length_map.
Qed.

(** X11.  [stopLive] acts on the session that opened last.  Along every
    run from the initial state [liveSessionRef] holds the connection whose
    opening was handled last (none before the first) and
    [window._scriptProcessor] the processor created last.  Stopping closes
    that connection only: a connection that is still connecting, or one
    that opened earlier, is left as it is; and it disconnects only the
    processor created last. *)
Theorem stopLive_acts_on_latest (evs : list Event) (k : nat) :
  let w := run evs initial in
  liveSessionRef w = last_opened evs /\
  refs_ok w /\
  (last_opened evs <> Some k ->
   connection k (stopLive w) = connection k w) /\
  (last_opened evs = Some k -> (k < length (connections w))%nat ->
   connection k (stopLive w) = Some Closed) /\
  ((S k < length (processors w))%nat ->
   nth_error (processors (stopLive w)) k = nth_error (processors w) k /\
   capture_connected (stopLive w) = Some false).
Proof.
  intros w.
  assert (Hl : liveSessionRef w = last_opened evs)
    by apply (run_liveSessionRef evs initial).
  pose proof (run_refs_ok evs initial initial_refs_ok) as Hr. fold w in Hr.
  split; [exact Hl|]. split; [exact Hr|]. rewrite <- Hl.
  split; [|split].
  - intros Hk. unfold connection. cbn [stopLive connections].
    destruct (liveSessionRef w) as [j|]; [|reflexivity].
    apply nth_error_update_neq. congruence.
  - intros Hk Hlt. unfold connection. cbn [stopLive connections].
    rewrite Hk. apply nth_error_update_eq, Hlt.
  - intros Hk. unfold capture_connected.
    cbn [stopLive processors _scriptProcessor].
    unfold refs_ok in Hr.
    destruct (_scriptProcessor w) as [p|]; destruct Hr as [H1 H2];
      [|rewrite H1 in Hk; cbn in Hk; lia].
    split.
    + apply nth_error_update_neq. lia.
    + apply nth_error_update_eq. lia.
Qed.

(** Two clicks before the first connection opens request two sessions.
    When only the first has opened, a stop closes it and leaves the second
    connecting; when both have opened, a stop closes the second and leaves
    the first open and capturing. *)
Lemma stopLive_acts_on_latest_witness :
  connections (stopLive (run [Click true; Click true; OnOpen 0] initial))
  = [Closed; Connecting] /\
  connection 0
    (stopLive (run [Click true; Click true; OnOpen 0; OnOpen 1] initial))
  = Some Opened /\
  nth_error
    (processors
       (stopLive (run [Click true; Click true; OnOpen 0; OnOpen 1] initial)))
    0
  = Some true.
Proof.
  destruct (stopLive_acts_on_latest [Click true; Click true; OnOpen 0] 0)
    as (_ & _ & _ & Hclose & _).
  pose proof (Hclose eq_refl ltac:(vm_compute; lia)) as H0.
  destruct (stopLive_acts_on_latest
              [Click true; Click true; OnOpen 0; OnOpen 1] 0)
    as (_ & _ & Hc & _ & Hp).
  pose proof (Hc ltac:(discriminate)) as Hc0.
  destruct (Hp ltac:(vm_compute; lia)) as [Hp0 _].
  split; [|split; [rewrite Hc0 | rewrite Hp0]; reflexivity].
  clear - H0. vm_compute in H0. vm_compute. congruence.
Defined.

(** X12.  Stopping and starting again does not reset the schedule: the new
    session gets fresh audio contexts, whose clock starts over, but
    [nextStartTimeRef] is the old one, so audio that arrives while the new
    clock is still behind it is started at the old [nextStartTimeRef]. *)
Theorem restart_keeps_nextStartTime (w : World) (k : nat)
    (m : LiveServerMessage) (now : Q) (text : string) (data : list byte)
    (b : AudioBuffer) :
  audioData m = Found (Some text) ->
  decode text = Some data ->
  decodeAudioData data = Ok b ->
  (now <= nextStartTimeRef w)%Q ->
  let w' := run [StopLive; StartLive true; OnOpen k] w in
  nextStartTimeRef w' = nextStartTimeRef w /\
  sourcesRef w' = sourcesRef w /\
  outputAudioCtxRef w' = Some (S (audioContexts w)) /\
  exists s,
    started (onmessage m now w') = started w ++ [s] /\
    buffer s = b /\
    (when s == nextStartTimeRef w)%Q.
Proof.
  intros Ha Ht Hd Hnow w'.
  assert (Hc : outputAudioCtxRef w' = Some (S (audioContexts w)))
    by reflexivity.
  repeat split.
  rewrite (onmessage_enqueue m now w' text data b _ Ha Ht Hc Hd).
  rewrite transcribe_started, enqueue_started.
  eexists. split; [reflexivity|]. split; [reflexivity|].
  cbn [when]. apply Q.max_l. exact Hnow.
Qed.

Lemma restart_keeps_nextStartTime_witness :
  exists s,
    started
      (onmessage (audio_message 4) 0
         (run [StopLive; StartLive true; OnOpen 1] active_world))
    = started active_world ++ [s] /\
    (when s == 1)%Q.
Proof.
  destruct (restart_keeps_nextStartTime active_world 1 (audio_message 4) 0
              (encode (repeat x00 8)) (repeat x00 8) (decoded_silence 4)
              eq_refl ltac:(vm_compute; reflexivity) eq_refl
              ltac:(vm_compute; discriminate))
    as (_ & _ & _ & s & Hs & _ & Hw).
  exists s. split; [exact Hs|].
  eapply Qeq_trans; [exact Hw|]. vm_compute. reflexivity.
Defined.

End SessionInvariants.

(** ** The base64 helpers *)

Module Base64Facts.
Import Base64.

Lemma list_triple_ind {A : Type} (P : list A -> Prop) :
  P [] -> (forall a, P [a]) -> (forall a b, P [a; b]) ->
  (forall a b c l, P l -> P (a :: b :: c :: l)) ->
  forall l, P l.
Proof.
  intros H0 H1 H2 H3. fix IH 1.
  intros [|a [|b [|c l]]];
    [exact H0 | apply H1 | apply H2 | apply H3, IH].
Qed.

Lemma code_range (c : ascii) : 0 <= code c < 256.
Proof. unfold code. pose proof (N_ascii_bounded c). lia. Qed.

Lemma char_of_code_code (c : ascii) : char_of_code (code c) = c.
Proof.
  unfold char_of_code, code. rewrite N2Z.id. apply ascii_N_embedding.
Qed.

Lemma digit_facts (v : Z) :
  0 <= v < 64 ->
  value (digit v) = Some v /\
  is_ascii_whitespace (digit v) = false /\
  Ascii.eqb (digit v) "=" = false.
Proof.
  intros H. rewrite <- (Z2Nat.id v) by lia.
  assert (Hn : (Z.to_nat v < 64)%nat) by lia.
  generalize dependent (Z.to_nat v). clear. intros n Hn.
  do 64 (destruct n as [|n]; [vm_compute; auto|]). lia.
Qed.

Lemma strip_padding_digit (v : Z) (r : list ascii) :
  0 <= v < 64 -> strip_padding (digit v :: r) = digit v :: strip_padding r.
Proof.
  intros H. cbn [strip_padding].
  destruct (digit_facts v H) as (_ & _ & ->). reflexivity.
Qed.

Lemma filter_digit (v : Z) (r : list ascii) :
  0 <= v < 64 ->
  filter (fun c => negb (is_ascii_whitespace c)) (digit v :: r)
  = digit v :: filter (fun c => negb (is_ascii_whitespace c)) r.
Proof.
  intros H. cbn [filter].
  destruct (digit_facts v H) as (_ & -> & _). reflexivity.
Qed.

Lemma values_digit (v : Z) (r : list ascii) :
  0 <= v < 64 ->
  values (digit v :: r)
  = match values r with Some vs => Some (v :: vs) | None => None end.
Proof.
  intros H. cbn [values].
  destruct (digit_facts v H) as (-> & _ & _). reflexivity.
Qed.

(** The four digits of three bytes, and the bytes read back from them. *)
Lemma sextets_range (a b c : Z) :
  0 <= a < 256 -> 0 <= b < 256 -> 0 <= c < 256 ->
  0 <= a / 4 < 64 /\
  0 <= a mod 4 * 16 + b / 16 < 64 /\
  0 <= b mod 16 * 4 + c / 64 < 64 /\
  0 <= c mod 64 < 64 /\
  0 <= a mod 4 * 16 < 64 /\
  0 <= b mod 16 * 4 < 64.
Proof. intros. repeat split; Z.to_euclidean_division_equations; lia. Qed.

Lemma sextets_bytes (a b c : Z) :
  0 <= a < 256 -> 0 <= b < 256 -> 0 <= c < 256 ->
  a / 4 * 4 + (a mod 4 * 16 + b / 16) / 16 = a /\
  (a mod 4 * 16 + b / 16) mod 16 * 16 + (b mod 16 * 4 + c / 64) / 4 = b /\
  (b mod 16 * 4 + c / 64) mod 4 * 64 + c mod 64 = c /\
  a / 4 * 4 + (a mod 4 * 16) / 16 = a /\
  (a mod 4 * 16 + b / 16) mod 16 * 16 + (b mod 16 * 4) / 4 = b.
Proof. intros. repeat split; Z.to_euclidean_division_equations; lia. Qed.

Lemma btoa_chars_filter (l : list ascii) :
  filter (fun c => negb (is_ascii_whitespace c)) (btoa_chars l)
  = btoa_chars l.
Proof.
  induction l as [|a|a b|a b c l IH] using list_triple_ind;
    [reflexivity| | |];
    pose proof (code_range a) as Ha;
    try pose proof (code_range b) as Hb;
    try pose proof (code_range c) as Hc.
  - destruct (sextets_range (code a) 0 0) as (S1 & _ & _ & _ & S5 & _);
      try lia.
    cbn [btoa_chars]. rewrite !filter_digit by assumption. reflexivity.
  - destruct (sextets_range (code a) (code b) 0)
      as (S1 & S2 & _ & _ & _ & S6); try lia.
    cbn [btoa_chars]. rewrite !filter_digit by assumption. reflexivity.
  - destruct (sextets_range (code a) (code b) (code c))
      as (S1 & S2 & S3 & S4 & _); try lia.
    cbn [btoa_chars]. rewrite !filter_digit by assumption.
    now rewrite IH.
Qed.

Lemma btoa_chars_length (l : list ascii) :
  length (btoa_chars l) = (4 * ((length l + 2) / 3))%nat.
Proof.
  induction l as [|a|a b|a b c l IH] using list_triple_ind;
    try reflexivity.
  cbn [btoa_chars length]. rewrite IH.
  replace (S (S (S (length l))) + 2)%nat with (length l + 2 + 1 * 3)%nat
    by lia.
  rewrite Nat.div_add by lia. lia.
Qed.

(** What [atob] makes of the text [btoa] produced, after the padding is
    removed. *)
Lemma btoa_chars_unpadded (l : list ascii) :
  (length (strip_padding (btoa_chars l)) mod 4 <> 1)%nat /\
  exists vs,
    values (strip_padding (btoa_chars l)) = Some vs /\
    bytes_of_values vs = l.
Proof.
  induction l as [|a|a b|a b c l IH] using list_triple_ind;
    [split; [cbn; lia | exists []; split; reflexivity]| | |];
    pose proof (code_range a) as Ha;
    try pose proof (code_range b) as Hb;
    try pose proof (code_range c) as Hc.
  - destruct (sextets_range (code a) 0 0) as (S1 & _ & _ & _ & S5 & _);
      try lia.
    destruct (sextets_bytes (code a) 0 0) as (_ & _ & _ & B4 & _); try lia.
    cbn [btoa_chars]. rewrite !strip_padding_digit by assumption.
    split; [cbn; lia|].
    eexists. split.
    + rewrite !values_digit by assumption. reflexivity.
    + cbn [bytes_of_values]. rewrite B4, char_of_code_code. reflexivity.
  - destruct (sextets_range (code a) (code b) 0)
      as (S1 & S2 & _ & _ & _ & S6); try lia.
    destruct (sextets_bytes (code a) (code b) 0) as (B1 & _ & _ & _ & B5);
      try lia.
    cbn [btoa_chars]. rewrite !strip_padding_digit by assumption.
    split; [cbn; lia|].
    eexists. split.
    + rewrite !values_digit by assumption. reflexivity.
    + cbn [bytes_of_values]. rewrite B1, B5, !char_of_code_code.
      reflexivity.
  - destruct (sextets_range (code a) (code b) (code c))
      as (S1 & S2 & S3 & S4 & _); try lia.
    destruct (sextets_bytes (code a) (code b) (code c))
      as (B1 & B2 & B3 & _); try lia.
    destruct IH as (Hl & vs & Hv & Hb').
    cbn [btoa_chars]. rewrite !strip_padding_digit by assumption.
    split.
    + cbn [length].
      replace (S (S (S (S (length (strip_padding (btoa_chars l)))))))
        with (length (strip_padding (btoa_chars l)) + 1 * 4)%nat by lia.
      rewrite Nat.Div0.mod_add. exact Hl.
    + eexists. split.
      * rewrite !values_digit by assumption. rewrite Hv. reflexivity.
      * cbn [bytes_of_values]. rewrite B1, B2, B3, !char_of_code_code, Hb'.
        reflexivity.
Qed.

Lemma atob_btoa (s : string) : atob (btoa s) = Some s.
Proof.
  unfold atob, btoa. rewrite list_ascii_of_string_of_list_ascii.
  rewrite btoa_chars_filter.
  assert (Hm : (length (btoa_chars (list_ascii_of_string s)) mod 4 =? 0)%nat
               = true).
  { apply Nat.eqb_eq. rewrite btoa_chars_length, Nat.mul_comm.
    apply Nat.Div0.mod_mul. }
  rewrite Hm.
  destruct (btoa_chars_unpadded (list_ascii_of_string s))
    as (Hl & vs & Hv & Hb).
  apply Nat.eqb_neq in Hl. rewrite Hl, Hv, Hb.
  now rewrite string_of_list_ascii_of_string.
Qed.

End Base64Facts.

Module Base64Codec.
Import Base64 Base64Facts.

Lemma digit_in_alphabet (v : Z) : 0 <= v < 64 -> In (digit v) alphabet.
Proof.
  intros H. unfold digit. apply nth_In.
  change (length alphabet) with 64%nat. lia.
Qed.

Lemma strip_padding_keeps (c : ascii) (l : list ascii) :
  In c l -> c <> "="%char -> In c (strip_padding l).
Proof.
  intros Hin Hc. induction l as [|x r IH]; [contradiction|].
  cbn [strip_padding].
  destruct (Ascii.eqb_spec x "=") as [Hx|Hx]; cbn [andb].
  - subst x. destruct Hin as [E|Hin]; [congruence|].
    destruct r as [|d [|e r']].
    + contradiction.
    + destruct Hin as [E|[]]. subst d.
      rewrite (proj2 (Ascii.eqb_neq c "=") Hc).
      right. apply IH. now left.
    + right. apply IH, Hin.
  - destruct Hin as [E|Hin]; [now left | right; apply IH, Hin].
Qed.

Lemma values_invalid (c : ascii) (l : list ascii) :
  In c l -> value c = None -> values l = None.
Proof.
  intros Hin Hv. induction l as [|x r IH]; [contradiction|].
  cbn [values]. destruct Hin as [<-|Hin].
  - now rewrite Hv.
  - rewrite (IH Hin). now destruct (value x).
Qed.

(** X13.  [decode] undoes [encode]: every byte sequence survives the trip
    through base64 text unchanged. *)
Theorem decode_encode (bytes : list byte) :
  decode (encode bytes) = Some bytes.
Proof.
  unfold decode, encode. rewrite atob_btoa.
  rewrite list_ascii_of_string_of_list_ascii, map_map.
  f_equal. rewrite <- (map_id bytes) at 2. apply map_ext.
  apply byte_of_ascii_of_byte.
Qed.

(** X14.  The text [encode] produces has four characters for every three bytes
    begun, all of them base64 digits or [=], and it is the empty (falsy)
    text exactly when there are no bytes. *)
Theorem encode_shape (bytes : list byte) :
  length (list_ascii_of_string (encode bytes))
  = (4 * ((length bytes + 2) / 3))%nat /\
  Forall (fun c => In c alphabet \/ c = "="%char)
         (list_ascii_of_string (encode bytes)) /\
  (encode bytes = EmptyString <-> bytes = []).
Proof.
  unfold encode, btoa.
  rewrite !list_ascii_of_string_of_list_ascii.
  split; [|split].
  - rewrite btoa_chars_length, length_map. reflexivity.
  - generalize (map ascii_of_byte bytes). intros l.
    induction l as [|a|a b|a b c l IH] using list_triple_ind;
      [constructor| | |];
      pose proof (code_range a) as Ha;
      try pose proof (code_range b) as Hb;
      try pose proof (code_range c) as Hc.
    + destruct (sextets_range (code a) 0 0) as (S1 & _ & _ & _ & S5 & _);
        try lia.
      cbn [btoa_chars].
      repeat (constructor; [left; apply digit_in_alphabet; assumption|]).
      repeat (constructor; [right; reflexivity|]). constructor.
    + destruct (sextets_range (code a) (code b) 0)
        as (S1 & S2 & _ & _ & _ & S6); try lia.
      cbn [btoa_chars].
      repeat (constructor; [left; apply digit_in_alphabet; assumption|]).
      repeat (constructor; [right; reflexivity|]). constructor.
    + destruct (sextets_range (code a) (code b) (code c))
        as (S1 & S2 & S3 & S4 & _); try lia.
      cbn [btoa_chars].
      repeat (constructor; [left; apply digit_in_alphabet; assumption|]).
      exact IH.
  - destruct bytes as [|b0 [|b1 [|b2 rest]]]; cbn; split;
      (reflexivity || discriminate).
Qed.

(** X15.  Text with a character that is neither a base64 digit, nor [=], nor
    ASCII white space is rejected by [decode], wherever the character
    stands. *)
Theorem decode_rejects_invalid (base64 : string) (c : ascii) :
  In c (list_ascii_of_string base64) ->
  is_ascii_whitespace c = false ->
  value c = None ->
  c <> "="%char ->
  decode base64 = None.
Proof.
  intros Hin Hws Hv Hc. unfold decode, atob.
  set (stripped := filter _ _).
  assert (Hs : In c stripped).
  { apply filter_In. split; [exact Hin | now rewrite Hws]. }
  set (unpadded := if (length stripped mod 4 =? 0)%nat
                   then strip_padding stripped else stripped).
  assert (Hu : In c unpadded).
  { unfold unpadded. destruct (length stripped mod 4 =? 0)%nat;
      [apply strip_padding_keeps; assumption | exact Hs]. }
  destruct (length unpadded mod 4 =? 1)%nat; [reflexivity|].
  now rewrite (values_invalid c unpadded Hu Hv).
Qed.

Lemma decode_rejects_invalid_witness : decode "TW!u" = None.
Proof.
  apply (decode_rejects_invalid "TW!u" "!"%char).
  - cbn. auto.
  - reflexivity.
  - reflexivity.
  - discriminate.
Defined.

End Base64Codec.

(** ** The audio tools *)

Module AudioTools.
Import Base64Codec.

Lemma list_ascii_of_string_app (a b : string) :
  list_ascii_of_string (a ++ b)
  = list_ascii_of_string a ++ list_ascii_of_string b.
Proof.
  induction a as [|c a IH]; [reflexivity|].
  cbn [append list_ascii_of_string app]. now rewrite IH.
Qed.

Lemma split_comma_no_comma (l : list ascii) :
  Forall (fun c => c <> ","%char) l -> split_comma l = [l].
Proof.
  induction 1 as [|c l Hc _ IH]; [reflexivity|].
  cbn [split_comma]. rewrite (proj2 (Ascii.eqb_neq c ",") Hc), IH.
  reflexivity.
Qed.

Lemma split_comma_header (h r : list ascii) :
  Forall (fun c => c <> ","%char) h ->
  split_comma (h ++ ","%char :: r) = h :: split_comma r.
Proof.
  induction 1 as [|c l Hc _ IH]; [reflexivity|].
  cbn [app split_comma]. rewrite (proj2 (Ascii.eqb_neq c ",") Hc), IH.
  reflexivity.
Qed.

(** X16.  [generateSpeech] returns exactly the inline data of the first part of
    the first candidate when that is a non-empty text; in every other case
    the promise is rejected, so what it returns is never empty. *)
Theorem generateSpeech_result
    (api : Promise GenAI.GenerateContentResponse) (base64 : string) :
  generateSpeech api = Fulfilled base64 <->
  base64 <> EmptyString /\
  exists response,
    api = Fulfilled response /\ speech_data response = Some base64.
Proof.
  unfold generateSpeech. split.
  - destruct api as [response|reason]; [|discriminate].
    destruct (speech_data response) as [[|c rest]|] eqn:E; try discriminate.
    intros [= <-]. split; [discriminate|]. exists response. auto.
  - intros (Hne & response & -> & ->).
    destruct base64; [congruence | reflexivity].
Qed.

(** X17.  When the response carries the base64 text of a non-empty, even number
    of bytes, [handleTTS] with a non-blank input makes one audio context
    and starts one source, whose buffer is the decoded bytes (half as many
    frames as bytes); nothing is rejected and the flag is cleared. *)
Theorem handleTTS_plays
    (response : GenAI.GenerateContentResponse) (bytes : list byte)
    (t : Tools) :
  blank (ttsInput t) = false ->
  speech_data response = Some (encode bytes) ->
  bytes <> [] ->
  Nat.even (length bytes) = true ->
  let t' := handleTTS (Fulfilled response) t in
  exists b,
    decodeAudioData bytes = Ok b /\
    tts_started t' = tts_started t ++ [b] /\
    (2 * length (channelData b))%nat = length bytes /\
    tts_contexts t' = S (tts_contexts t) /\
    unhandled t' = unhandled t /\
    isGeneratingSpeech t' = false.
Proof.
  intros Hb Hs Hne He t'.
  assert (Hg : generateSpeech (Fulfilled response) = Fulfilled (encode bytes)).
  { apply generateSpeech_result. split.
    - intros E. apply (proj1 (proj2 (proj2 (encode_shape bytes)))) in E.
      contradiction.
    - exists response. auto. }
  unfold t', handleTTS. rewrite Hb. unfold handleTTS_settled.
  rewrite Hg, decode_encode.
  rewrite (CodecFacts.decodeAudioData_even bytes He Hne).
  eexists. split; [reflexivity|]. cbn [tts_started tts_contexts unhandled
    isGeneratingSpeech handleTTS_started channelData].
  repeat split.
  rewrite length_map, TypedArrayFacts.int16_elements_length.
  apply Nat.even_spec in He. destruct He as [m ->].
  now rewrite Nat.div2_double.
Qed.

Lemma handleTTS_plays_witness :
  exists b,
    decodeAudioData [x00; x80; xff; x7f] = Ok b /\
    tts_started
      (handleTTS
         (Fulfilled
            {| GenAI.candidates :=
                 Some [{| GenAI.content :=
                            Some {| GenAI.parts :=
                                      Some [{| GenAI.inlineData :=
                                                 Some {| GenAI.data :=
                                                           Some "AID/fw=="%string;
                                                         GenAI.mimeType :=
                                                           None |};
                                               GenAI.text := None |}] |} |}]
            |})
         {| transcriptionResult := None; isTranscribing := false;
            ttsInput := "hello"%string; isGeneratingSpeech := false;
            tts_contexts := 0; tts_started := [];
            transcribe_requests := []; unhandled := [] |})
    = [b].
Proof.
  destruct (handleTTS_plays
              {| GenAI.candidates :=
                   Some [{| GenAI.content :=
                              Some {| GenAI.parts :=
                                        Some [{| GenAI.inlineData :=
                                                   Some {| GenAI.data :=
                                                             Some "AID/fw=="%string;
                                                           GenAI.mimeType :=
                                                             None |};
                                                 GenAI.text := None |}] |} |}]
              |}
              [x00; x80; xff; x7f]
              {| transcriptionResult := None; isTranscribing := false;
                 ttsInput := "hello"%string; isGeneratingSpeech := false;
                 tts_contexts := 0; tts_started := [];
                 transcribe_requests := []; unhandled := [] |}
              eq_refl eq_refl ltac:(discriminate) eq_refl)
    as (b & Hd & Hs & _).
  exists b. split; [exact Hd | exact Hs].
Defined.

(** X18.  [handleTTS] with a blank input does nothing.  Otherwise the flag is
    cleared whatever happens, and the call either starts exactly one
    source and rejects nothing, or starts none and leaves exactly one
    rejection that nothing catches. *)
Theorem handleTTS_outcome
    (api : Promise GenAI.GenerateContentResponse) (t : Tools) :
  let t' := handleTTS api t in
  (blank (ttsInput t) = true -> t' = t) /\
  (blank (ttsInput t) = false ->
   isGeneratingSpeech t' = false /\
   ((exists b, tts_started t' = tts_started t ++ [b] /\
               unhandled t' = unhandled t) \/
    (exists reason, tts_started t' = tts_started t /\
                    unhandled t' = unhandled t ++ [reason]))).
Proof.
  intros t'. unfold t', handleTTS. split; intros Hb; rewrite Hb.
  - reflexivity.
  - unfold handleTTS_settled.
    destruct (generateSpeech api) as [base64|reason].
    + destruct (decode base64) as [bytes|].
      * destruct (decodeAudioData bytes) as [b|e]; cbn; eauto.
      * cbn. eauto.
    + cbn. eauto.
Qed.

Lemma handleTTS_outcome_witness :
  isGeneratingSpeech
    (handleTTS (Rejected "offline"%string)
       {| transcriptionResult := None; isTranscribing := false;
          ttsInput := " say it "%string; isGeneratingSpeech := false;
          tts_contexts := 0; tts_started := [];
          transcribe_requests := []; unhandled := [] |})
  = false.
Proof.
  exact (proj1 (proj2 (handleTTS_outcome (Rejected "offline"%string)
           {| transcriptionResult := None; isTranscribing := false;
              ttsInput := " say it "%string; isGeneratingSpeech := false;
              tts_contexts := 0; tts_started := [];
              transcribe_requests := []; unhandled := [] |}) eq_refl)).
Defined.

Lemma trimStart_head (l : list ascii) (c : ascii) (r : list ascii) :
  trimStart l = c :: r -> is_white_space c = false.
Proof.
  induction l as [|x l IH]; cbn [trimStart]; [discriminate|].
  destruct (is_white_space x) eqn:E; [exact IH|].
  intros [= <- _]. exact E.
Qed.

Lemma trimStart_nil (l : list ascii) :
  trimStart l = [] <-> Forall (fun c => is_white_space c = true) l.
Proof.
  induction l as [|c l IH]; cbn [trimStart].
  - split; [constructor | reflexivity].
  - destruct (is_white_space c) eqn:E.
    + rewrite IH. split; [now constructor | now inversion 1].
    + split; [discriminate|]. inversion 1; congruence.
Qed.

(** An input is blank for [handleTTS] exactly when all its characters are
    white space. *)
Lemma blank_iff_all_white_space (s : string) :
  blank s = true <->
  Forall (fun c => is_white_space c = true) (list_ascii_of_string s).
Proof.
  unfold blank, trim. rewrite <- trimStart_nil.
  set (l := trimStart (list_ascii_of_string s)).
  split.
  - intros H. destruct l as [|c r] eqn:E; [reflexivity|].
    apply trimStart_head in E.
    destruct (rev (trimStart (rev (c :: r)))) as [|x y] eqn:R;
      [|discriminate H].
    apply (f_equal (@rev ascii)) in R. rewrite rev_involutive in R.
    cbn [rev] in R. apply trimStart_nil in R.
    apply Forall_rev in R. rewrite rev_app_distr, rev_involutive in R.
    cbn [rev app] in R. inversion R; congruence.
  - intros ->. reflexivity.
Qed.

(** X20.  Only a transcription that comes back clears the spinner: once
    [isTranscribing] is set, it stays set through every other event, among
    them a request that fails and a file that is never read, and it is
    clear right after a transcription has come back. *)
Theorem spinner_needs_success (evs : list ToolsEvent) (t : Tools) :
  isTranscribing t = true ->
  forallb (fun ev => negb (transcription_done ev)) evs = true ->
  isTranscribing (tools_run evs t) = true /\
  transcriptionResult (tools_run evs t) = transcriptionResult t /\
  forall file_type result text,
    isTranscribing
      (tools_run (evs ++ [ReaderOnload file_type result (Fulfilled text)]) t)
    = false /\
    transcriptionResult
      (tools_run (evs ++ [ReaderOnload file_type result (Fulfilled text)]) t)
    = text.
Proof.
  intros Ht Hev.
  assert (H : isTranscribing (tools_run evs t) = true /\
              transcriptionResult (tools_run evs t) = transcriptionResult t).
  { revert t Ht Hev. induction evs as [|ev evs IH]; intros t Ht Hev.
    - split; [exact Ht | reflexivity].
    - cbn [forallb] in Hev. apply andb_prop in Hev. destruct Hev as [He Hev].
      change (tools_run (ev :: evs) t) with (tools_run evs (tools_step t ev)).
      assert (Hs : isTranscribing (tools_step t ev) = true /\
                   transcriptionResult (tools_step t ev)
                   = transcriptionResult t).
      { destruct ev as [s|api|[f|]|ft r [text|reason]]; cbn [tools_step].
        - split; [exact Ht | reflexivity].
        - unfold handleTTS. destruct (blank (ttsInput t));
            [split; [exact Ht | reflexivity]|].
          unfold handleTTS_settled.
          destruct (generateSpeech api) as [b64|reason];
            [destruct (decode b64) as [bytes|];
             [destruct (decodeAudioData bytes)|]|];
            (split; [exact Ht | reflexivity]).
        - split; reflexivity.
        - split; [exact Ht | reflexivity].
        - discriminate He.
        - split; [exact Ht | reflexivity]. }
      destruct Hs as [Hs1 Hs2].
      destruct (IH _ Hs1 Hev) as [I1 I2]. split; [exact I1|].
      now rewrite I2. }
  destruct H as [H1 H2]. split; [exact H1|]. split; [exact H2|].
  intros file_type result text. unfold tools_run.
  rewrite fold_left_app. split; reflexivity.
Qed.

Lemma spinner_needs_success_witness :
  isTranscribing
    (tools_run
       [ReaderOnload "audio/wav" "data:audio/wav;base64,AAA="
          (Rejected "quota"); HandleTranscription None;
        HandleTTS (Rejected "quota")]%string
       (handleTranscription (Some "audio/wav"%string) tools_initial))
  = true.
Proof.
  exact (proj1 (spinner_needs_success
           [ReaderOnload "audio/wav" "data:audio/wav;base64,AAA="
              (Rejected "quota"); HandleTranscription None;
            HandleTTS (Rejected "quota")]%string
           (handleTranscription (Some "audio/wav"%string) tools_initial)
           eq_refl eq_refl)).
Defined.

(** X21.  From the data URL of a file, made of a header without comma, a comma
    and the base64 text of the file's bytes, [reader.onload] passes
    exactly that base64 text to [transcribeAudio], together with the MIME
    type it was given; decoding it gives the file's bytes.  A result
    without any comma yields no payload. *)
Theorem transcription_payload (header file_type : string)
    (bytes : list byte) (api : Promise (option string)) (t : Tools) :
  Forall (fun c => c <> ","%char) (list_ascii_of_string header) ->
  let result := (header ++ "," ++ encode bytes)%string in
  data_url_payload result = Some (encode bytes) /\
  transcribe_requests (reader_onload file_type result api t)
  = transcribe_requests t ++ [(Some (encode bytes), file_type)] /\
  decode (encode bytes) = Some bytes /\
  data_url_payload header = None.
Proof.
  intros Hh result.
  assert (Hp : data_url_payload result = Some (encode bytes)).
  { unfold data_url_payload, result.
    rewrite list_ascii_of_string_app. cbn [append list_ascii_of_string].
    rewrite split_comma_header by exact Hh.
    rewrite split_comma_no_comma.
    - cbn [nth_error option_map].
      now rewrite string_of_list_ascii_of_string.
    - destruct (encode_shape bytes) as (_ & Hf & _).
      eapply Forall_impl; [|exact Hf]. cbn beta.
      intros c [Hin| ->]; [|discriminate].
      intros ->. revert Hin. vm_compute. intuition discriminate. }
  repeat split.
  - exact Hp.
  - destruct api; cbn [reader_onload transcribe_requests];
      fold result; rewrite Hp; reflexivity.
  - apply decode_encode.
  - unfold data_url_payload. rewrite split_comma_no_comma by exact Hh.
    reflexivity.
Qed.

Lemma transcription_payload_witness :
  data_url_payload "data:audio/wav;base64,TWFu" = Some "TWFu"%string.
Proof.
  exact (proj1 (transcription_payload "data:audio/wav;base64" "audio/wav"
                  [x4d; x61; x6e] (Rejected "none") tools_initial
                  ltac:(repeat constructor; discriminate))).
Defined.

Lemma decode_white_space (s : string) :
  Forall (fun c => Base64.is_ascii_whitespace c = true)
         (list_ascii_of_string s) ->
  decode s = Some [].
Proof.
  intros H. unfold decode, Base64.atob.
  rewrite (SessionInvariants.filter_none _ _
             (Forall_impl _ (fun c Hc => f_equal negb Hc) H)).
  reflexivity.
Qed.

(** X19.  Audio data made of ASCII white space only passes the emptiness test
    of [generateSpeech], decodes to no bytes, and is then refused by the
    buffer constructor: [handleTTS] starts nothing and is rejected with
    NotSupportedError. *)
Theorem white_space_audio_rejected
    (response : GenAI.GenerateContentResponse) (base64 : string)
    (t : Tools) :
  blank (ttsInput t) = false ->
  speech_data response = Some base64 ->
  base64 <> EmptyString ->
  Forall (fun c => Base64.is_ascii_whitespace c = true)
         (list_ascii_of_string base64) ->
  let t' := handleTTS (Fulfilled response) t in
  generateSpeech (Fulfilled response) = Fulfilled base64 /\
  decode base64 = Some [] /\
  tts_started t' = tts_started t /\
  unhandled t' = unhandled t ++ ["NotSupportedError"%string] /\
  isGeneratingSpeech t' = false.
Proof.
  intros Hb Hs Hne Hw t'.
  assert (Hg : generateSpeech (Fulfilled response) = Fulfilled base64).
  { apply generateSpeech_result. split; [exact Hne|]. exists response. auto. }
  pose proof (decode_white_space base64 Hw) as Hd.
  split; [exact Hg|]. split; [exact Hd|].
  unfold t', handleTTS. rewrite Hb. unfold handleTTS_settled.
  rewrite Hg, Hd. repeat split.
Qed.

Lemma white_space_audio_rejected_witness :
  unhandled
    (handleTTS
       (Fulfilled
          {| GenAI.candidates :=
               Some [{| GenAI.content :=
                          Some {| GenAI.parts :=
                                    Some [{| GenAI.inlineData :=
                                               Some {| GenAI.data :=
                                                         Some " "%string;
                                                       GenAI.mimeType :=
                                                         None |};
                                             GenAI.text := None |}] |} |}]
          |})
       {| transcriptionResult := None; isTranscribing := false;
          ttsInput := "hello"%string; isGeneratingSpeech := false;
          tts_contexts := 0; tts_started := [];
          transcribe_requests := []; unhandled := [] |})
  = ["NotSupportedError"%string].
Proof.
  exact (proj1 (proj2 (proj2 (proj2 (white_space_audio_rejected
           {| GenAI.candidates :=
                Some [{| GenAI.content :=
                           Some {| GenAI.parts :=
                                     Some [{| GenAI.inlineData :=
                                                Some {| GenAI.data :=
                                                          Some " "%string;
                                                        GenAI.mimeType :=
                                                          None |};
                                              GenAI.text := None |}] |} |}]
           |}
           " "%string
           {| transcriptionResult := None; isTranscribing := false;
              ttsInput := "hello"%string; isGeneratingSpeech := false;
              tts_contexts := 0; tts_started := [];
              transcribe_requests := []; unhandled := [] |}
           eq_refl eq_refl ltac:(discriminate)
           ltac:(repeat constructor)))))).
Defined.

End AudioTools.
